(** * Enigma-CLI: a shallow embedding of [src/main.cpp]

    The C++ program is modelled function by function.  Unsigned integers are
    [Z] values with their wrap-around written out, [std::vector<uint32_t>] is
    a [list Z] indexed through checked accessors, the mutable members of a
    class are threaded explicitly, and every operation whose behaviour C++
    leaves undefined (an access outside a vector, a remainder by zero, a read
    of an uninitialised variable) yields [Undefined] instead of a value. *)

From Stdlib Require Import ZArith Lia String Ascii.
From stdpp Require Import base list.

Local Open Scope Z_scope.

(** ** Machine integers *)

(** [uint32_t]. *)
Definition u32 (z : Z) : Z := z mod 2 ^ 32.

(** [std::vector<uint32_t>::size_type], that is [std::size_t]; the width of
    the type is a parameter of the arithmetic, fixed below to the 64 bits of
    an LP64 target. *)
Definition size_wrap (bits : Z) (z : Z) : Z := z mod 2 ^ bits.
Definition SIZE_BITS : Z := 64.
Definition usize (z : Z) : Z := size_wrap SIZE_BITS z.

(** [char], signed and eight bits wide. *)
Definition to_char (z : Z) : Z := (z + 128) mod 256 - 128.

Definition char_of_ascii (a : ascii) : Z := to_char (Z.of_N (N_of_ascii a)).

(** The characters of a [std::string], in order. *)
Definition chars (s : string) : list Z := char_of_ascii <$> list_ascii_of_string s.

(** ** Undefined behaviour and the result type *)

Inductive ub : Type :=
  | OutOfBounds (size : Z) (index : Z)   (* v[index] on a vector of [size] elements *)
  | RemainderByZero                      (* x % 0 *)
  | Uninitialised.                       (* read of a variable never written *)

Inductive result (A : Type) : Type :=
  | Ok (a : A)
  | Undefined (why : ub).
Arguments Ok {A} a.
Arguments Undefined {A} why.

#[global] Instance result_ret : MRet result := fun _ a => Ok a.
#[global] Instance result_bind : MBind result := fun _ _ f m =>
  match m with
  | Ok a => f a
  | Undefined w => Undefined w
  end.

(** ** std::vector<uint32_t> *)

Abbreviation Shuffle := (list Z).

Definition vsize (v : Shuffle) : Z := Z.of_nat (length v).

Definition in_bounds (v : Shuffle) (i : Z) : bool := (0 <=? i) && (i <? vsize v).

(** [v[i]] as an rvalue: [operator[]] performs no bounds check. *)
Definition vget (v : Shuffle) (i : Z) : result Z :=
  if in_bounds v i then
    match v !! Z.to_nat i with
    | Some x => Ok x
    | None => Undefined (OutOfBounds (vsize v) i)
    end
  else Undefined (OutOfBounds (vsize v) i).

(** [v[i] = x]. *)
Definition vset (v : Shuffle) (i x : Z) : result Shuffle :=
  if in_bounds v i then Ok (<[Z.to_nat i := x]> v)
  else Undefined (OutOfBounds (vsize v) i).

(** ** File-scope wiring strings *)

Definition alpha : string := "abcdefghijklmnopqrstuvwxyz".
Definition ALPHA : string := "ABCDEFGHIJKLMNOPQRSTUVWXYZ".

Module rotors.
Definition etw_alpha : string := "ABCDEFGHIJKLMNOPQRSTUVWXYZ".
Definition etw_qwert : string := "QWERTYUIOPASDFGHJKLZXCVBNM".
Definition i : string := "EKMFLGDQVZNTOWYHXUSPAIBRCJ".
Definition ii : string := "AJDKSIRUXBLHWTMCQGZNPYFVOE".
Definition iii : string := "BDFHJLCPRTXVZNYEIWGAKMUSQO".
Definition iv : string := "ABCDEFGHIJKLMNOPQRSTUVWXYZ".
Definition v : string := "ABCDEFGHIJKLMNOPQRSTUVWXYZ".
Definition ukw_b : string := "YRUHQSLDPXNGOKMIEBFZCWVJAT".
End rotors.

(** ** make_notches *)

Fixpoint make_notches_loop (ret : Shuffle) (vals : list Z) : result Shuffle :=
  match vals with
  | [] => Ok ret
  | val :: vals' => ret' ← vset ret val 1; make_notches_loop ret' vals'
  end.

Definition make_notches (len : Z) (vals : list Z) : result Shuffle :=
  make_notches_loop (replicate (Z.to_nat len) 0) vals.

(** ** class Rotor *)

Record Rotor : Type := mkRotor {
  shuffle_fwd_ : Shuffle;
  shuffle_bck_ : Shuffle;
  notches_ : Shuffle;
  len_ : Z;
  pos_ : Z
}.

(** ['A'], the member [a_]. *)
Definition a_ : Z := 65.

(** The loop [for (auto elem : shuffle_fwd_) shuffle_bck_[elem] = i++;]
    with its counter [i], an [unsigned]. *)
Fixpoint invert_loop (fwd : Shuffle) (bck : Shuffle) (i : Z) : result Shuffle :=
  match fwd with
  | [] => Ok bck
  | elem :: fwd' => bck' ← vset bck elem i; invert_loop fwd' bck' (u32 (i + 1))
  end.

(** [Rotor(std::string_view shuffle, Shuffle notches, initial_pos, ring_setting)].
    The members are initialised in declaration order, then the body
    subtracts [a_] from every entry of [shuffle_fwd_] and fills
    [shuffle_bck_].  [ring_setting] is never read. *)
Definition Rotor_ctor (shuffle : string) (notches : Shuffle)
    (initial_pos ring_setting : Z) : result Rotor :=
  let fwd0 := u32 <$> chars shuffle in
  let bck0 := replicate (length (chars shuffle)) 0 in
  let len := vsize fwd0 in
  let fwd := (fun ch => u32 (ch - a_)) <$> fwd0 in
  bck ← invert_loop fwd bck0 0;
  Ok {| shuffle_fwd_ := fwd; shuffle_bck_ := bck; notches_ := notches;
        len_ := len; pos_ := initial_pos |}.

(** [x % len_] on [size_type] operands. *)
Definition rem_len (r : Rotor) (x : Z) : result Z :=
  if len_ r =? 0 then Undefined RemainderByZero else Ok (x mod len_ r).

(** [uint32_t rotate(uint32_t turnover)]: returns the notch flag and the
    rotor with its new position. *)
Definition rotate (r : Rotor) (turnover : Z) : result (Z * Rotor) :=
  pos ← rem_len r (usize (pos_ r - turnover));
  let r' := {| shuffle_fwd_ := shuffle_fwd_ r; shuffle_bck_ := shuffle_bck_ r;
               notches_ := notches_ r; len_ := len_ r; pos_ := pos |} in
  n ← vget (notches_ r') (pos_ r');
  Ok (n, r').

Definition connect_fwd (r : Rotor) (character : Z) : result Z :=
  idx ← rem_len r (usize (character + pos_ r));
  vget (shuffle_fwd_ r) idx.

Definition connect_bck (r : Rotor) (character : Z) : result Z :=
  idx ← rem_len r (usize (character + pos_ r));
  vget (shuffle_bck_ r) idx.

(** ** class EnigmaMachine *)

Record EnigmaMachine : Type := mkEnigma {
  rotors_ : list Rotor;
  plugboard_ : Shuffle;
  etw_ : Rotor;
  ukw_ : Rotor
}.

(** [std::iota(first, last, 0u)] over a vector of the given contents. *)
Fixpoint iota (v : Shuffle) (value : Z) : Shuffle :=
  match v with
  | [] => []
  | _ :: v' => value :: iota v' (u32 (value + 1))
  end.

(** ['Z' - 'A']. *)
Definition notch_Z : Z := 90 - 65.

Definition EnigmaMachine_ctor : result EnigmaMachine :=
  let plug0 := replicate 26%nat 0 in
  n_etw ← make_notches 26 [];
  etw ← Rotor_ctor rotors.etw_alpha n_etw 0 0;
  n_ukw ← make_notches 26 [];
  ukw ← Rotor_ctor rotors.ukw_b n_ukw 0 0;
  n1 ← make_notches 26 [notch_Z];
  r1 ← Rotor_ctor rotors.i n1 0 0;
  n2 ← make_notches 26 [notch_Z];
  r2 ← Rotor_ctor rotors.i n2 0 0;
  n3 ← make_notches 26 [notch_Z];
  r3 ← Rotor_ctor rotors.i n3 0 0;
  Ok {| rotors_ := [r1; r2; r3]; plugboard_ := iota plug0 0;
        etw_ := etw; ukw_ := ukw |}.

(** The lambda [chr] of [cipher_one]: [static_cast<char>(C + 'A')]; the
    result depends on the low eight bits of its argument only. *)
Definition chr (C : Z) : Z := to_char (C + 65).

Definition SPACE : Z := 32.
Definition NEWLINE : Z := 10.

(** [for (auto &rotor : rotors_) { scratch = rotor.connect_fwd(scratch);
    std::cout << chr(scratch) << " "; }], returning the final [scratch] and
    the characters appended to [std::cout]. *)
Fixpoint forward_pass (rs : list Rotor) (scratch : Z) (cout : list Z)
    : result (Z * list Z) :=
  match rs with
  | [] => Ok (scratch, cout)
  | rotor :: rs' =>
      scratch' ← connect_fwd rotor scratch;
      forward_pass rs' scratch' (cout ++ [chr scratch'; SPACE])
  end.

(** The same loop over [make_reverse(rotors_)] with [connect_bck]; the
    argument is the already reversed sequence. *)
Fixpoint backward_pass (rs : list Rotor) (scratch : Z) (cout : list Z)
    : result (Z * list Z) :=
  match rs with
  | [] => Ok (scratch, cout)
  | rotor :: rs' =>
      scratch' ← connect_bck rotor scratch;
      backward_pass rs' scratch' (cout ++ [chr scratch'; SPACE])
  end.

(** [char cipher_one(char c)]: the returned character together with what
    the call wrote to [std::cout]. *)
Definition cipher_one (m : EnigmaMachine) (c : Z) : result (Z * list Z) :=
  let scratch := u32 (c - 65) in
  scratch ← vget (plugboard_ m) scratch;
  scratch ← connect_fwd (etw_ m) scratch;
  '(scratch, cout) ← forward_pass (rotors_ m) scratch [];
  let cout := cout ++ [NEWLINE] in
  scratch ← connect_fwd (ukw_ m) scratch;
  let cout := cout ++ [chr scratch; NEWLINE] in
  '(scratch, cout) ← backward_pass (reverse (rotors_ m)) scratch cout;
  let cout := cout ++ [NEWLINE] in
  scratch ← connect_bck (etw_ m) scratch;
  scratch ← vget (plugboard_ m) scratch;
  Ok (to_char (u32 (scratch + 65)), cout).

(** The character [cipher_one] returns, without its diagnostics. *)
Definition cipher_char (m : EnigmaMachine) (c : Z) : result Z :=
  '(c', _) ← cipher_one m c; Ok c'.

(** [for (auto &rotor : rotors_) rotated = rotor.rotate(rotated);] *)
Fixpoint keydown_loop (rs : list Rotor) (rotated : Z) : result (list Rotor) :=
  match rs with
  | [] => Ok []
  | rotor :: rs' =>
      '(rotated', rotor') ← rotate rotor rotated;
      rs'' ← keydown_loop rs' rotated';
      Ok (rotor' :: rs'')
  end.

Definition keydown (m : EnigmaMachine) : result EnigmaMachine :=
  rs ← keydown_loop (rotors_ m) 1;
  Ok {| rotors_ := rs; plugboard_ := plugboard_ m; etw_ := etw_ m; ukw_ := ukw_ m |}.

(** ** main *)

(** The state of [main]'s loop: the machine, the local [c] (unset until the
    first successful extraction), the characters not yet read from
    [std::cin], the stream's [good()] flag, and everything written to
    [std::cout]. *)
Record Main : Type := mkMain {
  machine : EnigmaMachine;
  c : option Z;
  cin : list Z;
  cin_good : bool;
  cout : list Z
}.

(** [EnigmaMachine machine; machine.keydown(); char c;] *)
Definition main_start (input : list Z) : result Main :=
  m ← EnigmaMachine_ctor;
  m ← keydown m;
  Ok {| machine := m; c := None; cin := input; cin_good := true; cout := [] |}.

(** [std::isspace] in the "C" locale: tab, line feed, vertical tab, form
    feed, carriage return and space. *)
Definition isspace (ch : Z) : bool := ((9 <=? ch) && (ch <=? 13)) || (ch =? 32).

(** The whitespace [operator>>] skips before it extracts ([skipws] is set
    on [std::cin]). *)
Fixpoint skipws (stream : list Z) : list Z :=
  match stream with
  | [] => []
  | x :: rest => if isspace x then skipws rest else stream
  end.

(** One pass through the body of [while (std::cin.good())].  [std::cin >> c]
    skips whitespace and extracts one character; when none is left the
    extraction fails, leaves [c] as it was and clears [good()]. *)
Definition loop_body (s : Main) : result Main :=
  let '(c', cin', good') :=
    match skipws (cin s) with
    | x :: rest => (Some x, rest, true)
    | [] => (c s, [], false)
    end in
  m ← keydown (machine s);
  cv ← match c' with
       | Some x => Ok x
       | None => Undefined Uninitialised
       end;
  '(o, diag) ← cipher_one m cv;
  Ok {| machine := m; c := c'; cin := cin'; cin_good := good';
        cout := cout s ++ diag ++ [o; NEWLINE] |}.

Fixpoint main_while (fuel : nat) (s : Main) : result Main :=
  match fuel with
  | O => Ok s
  | S fuel' =>
      if cin_good s then s' ← loop_body s; main_while fuel' s' else Ok s
  end.

(** The loop body runs at most once per character of the stream and once
    more for the failed extraction that ends the loop. *)
Definition main (input : list Z) : result Main :=
  s ← main_start input;
  main_while (S (length input)) s.

(** ** Derived notions used by the statements *)

(** [n] passes through the loop body. *)
Fixpoint iterations (n : nat) (s : Main) : result Main :=
  match n with
  | O => Ok s
  | S n' => s' ← loop_body s; iterations n' s'
  end.

(** The constructed machine after [n] calls of [keydown]. *)
Fixpoint steps (n : nat) : result EnigmaMachine :=
  match n with
  | O => EnigmaMachine_ctor
  | S n' => m ← steps n'; keydown m
  end.

Definition positions (m : EnigmaMachine) : list Z := pos_ <$> rotors_ m.

(** A rotor with its position replaced. *)
Definition at_pos (r : Rotor) (p : Z) : Rotor :=
  {| shuffle_fwd_ := shuffle_fwd_ r; shuffle_bck_ := shuffle_bck_ r;
     notches_ := notches_ r; len_ := len_ r; pos_ := p |}.

Inductive reachable : EnigmaMachine -> Prop :=
  | reach_ctor m : EnigmaMachine_ctor = Ok m -> reachable m
  | reach_keydown m m' : reachable m -> keydown m = Ok m' -> reachable m'.

(** An input character inside the alphabet ['A'..'Z']. *)
Definition valid_char (ch : Z) : Prop := 65 <= ch <= 90.

(** An alphabet index. *)
Definition index (x : Z) : Prop := 0 <= x < 26.

(** A stream with its whitespace removed. *)
Definition without_space (stream : list Z) : list Z :=
  List.filter (fun ch => negb (isspace ch)) stream.

(** The forward table the constructor computes from a wiring string. *)
Definition fwd_of (wiring : string) : Shuffle :=
  (fun ch => u32 (ch - a_)) <$> (u32 <$> chars wiring).

(** The machine [EnigmaMachine_ctor] returns (the fallback branch is never
    taken, as [ctor_the_machine] shows). *)
Definition the_machine : EnigmaMachine :=
  match EnigmaMachine_ctor with
  | Ok m => m
  | Undefined _ => mkEnigma [] [] (mkRotor [] [] [] 0 0) (mkRotor [] [] [] 0 0)
  end.

#[global] Instance Rotor_eq_dec : EqDecision Rotor.
Proof. solve_decision. Defined.

#[global] Instance EnigmaMachine_eq_dec : EqDecision EnigmaMachine.
Proof. solve_decision. Defined.

(** A machine with the first rotor of its stack set to position [p]. *)
Definition first_at (m : EnigmaMachine) (p : Z) : EnigmaMachine :=
  match rotors_ m with
  | [] => m
  | r :: rs =>
      {| rotors_ := at_pos r p :: rs; plugboard_ := plugboard_ m;
         etw_ := etw_ m; ukw_ := ukw_ m |}
  end.

(** Where one [keydown] takes the first rotor from a position [p] in 0..15. *)
Definition next_pos (p : Z) : Z := if p =? 0 then 15 else p - 1.

(** Boolean form of: [keydown] turns the first rotor only. *)
Definition first_only (p : Z) : bool :=
  match keydown (first_at the_machine p) with
  | Ok m' => bool_decide (positions m' = [next_pos p; 0; 0])
             && bool_decide (m' = first_at the_machine (next_pos p))
  | Undefined _ => false
  end.

(** The reflector of a machine, applied forward. *)
Definition reflector_forward (m : EnigmaMachine) (x : Z) : result Z :=
  connect_fwd (ukw_ m) x.

(** Boolean form of the reflector property at one index. *)
Definition reflects (m : EnigmaMachine) (x : Z) : bool :=
  match reflector_forward m x with
  | Ok y =>
      negb (y =? x) &&
      match reflector_forward m y with
      | Ok x' => x' =? x
      | Undefined _ => false
      end
  | Undefined _ => false
  end.

(** Boolean form of reciprocity at one character. *)
Definition reciprocal (m : EnigmaMachine) (ch : Z) : bool :=
  match cipher_char m ch with
  | Ok ch' =>
      match cipher_char m ch' with
      | Ok ch'' => ch'' =? ch
      | Undefined _ => false
      end
  | Undefined _ => false
  end.

(** ** Well-formed rotors and machines *)

(** A rotor over the 26-letter alphabet: tables of 26 alphabet indices,
    26 notch flags, and a position that is an alphabet index. *)
Record rotor_wf (r : Rotor) : Prop := mk_rotor_wf {
  wf_len : len_ r = 26;
  wf_fwd_size : vsize (shuffle_fwd_ r) = 26;
  wf_bck_size : vsize (shuffle_bck_ r) = 26;
  wf_notch_size : vsize (notches_ r) = 26;
  wf_fwd_range : Forall index (shuffle_fwd_ r);
  wf_bck_range : Forall index (shuffle_bck_ r);
  wf_pos : index (pos_ r)
}.

Record machine_wf (m : EnigmaMachine) : Prop := mk_machine_wf {
  wf_rotors : Forall rotor_wf (rotors_ m);
  wf_plug_size : vsize (plugboard_ m) = 26;
  wf_plug_range : Forall index (plugboard_ m);
  wf_etw : rotor_wf (etw_ m);
  wf_ukw : rotor_wf (ukw_ m)
}.

(** ** The default constructor *)

(** The loop [for (auto elem : shuffle_fwd_) shuffle_bck_[elem - a_] = i++;]
    of [Rotor()], which runs before [a_] is subtracted from the forward
    table. *)
Fixpoint invert_loop_default (fwd : Shuffle) (bck : Shuffle) (i : Z) : result Shuffle :=
  match fwd with
  | [] => Ok bck
  | elem :: fwd' =>
      bck' ← vset bck (u32 (elem - a_)) i;
      invert_loop_default fwd' bck' (u32 (i + 1))
  end.

(** [Rotor()].  Both tables start as the characters of [ALPHA]; [None]
    stands for a failed [assert], which aborts the program. *)
Definition Rotor_default : option (result Rotor) :=
  let fwd0 := u32 <$> chars ALPHA in
  let bck0 := u32 <$> chars ALPHA in
  let notches0 := replicate (length fwd0) 0 in
  let len := vsize fwd0 in
  if vsize fwd0 =? vsize bck0 then
    Some (bck ← invert_loop_default fwd0 bck0 0;
          let fwd := (fun ch => u32 (ch - a_)) <$> fwd0 in
          notches ← vset notches0 (usize (len - 1)) 1;
          Ok {| shuffle_fwd_ := fwd; shuffle_bck_ := bck; notches_ := notches;
                len_ := len; pos_ := 0 |})
  else None.

(** ** Boolean checks used by the statements *)

Definition index_b (x : Z) : bool := (0 <=? x) && (x <? 26).

(** [f] undoes [g] on every alphabet index: [g x] is an index that [f]
    maps back to [x]. *)
Definition undoes (f g : Z -> result Z) : bool :=
  forallb (fun x =>
             match g x with
             | Ok y =>
                 index_b y &&
                 match f y with
                 | Ok x' => x' =? x
                 | Undefined _ => false
                 end
             | Undefined _ => false
             end) (seqZ 0 26).

(** A 26-letter rotor at position 0 whose two tables undo each other. *)
Definition rotor_zero_ok (r : Rotor) : bool :=
  (len_ r =? 26) && (pos_ r =? 0)
  && undoes (vget (shuffle_bck_ r)) (vget (shuffle_fwd_ r))
  && undoes (vget (shuffle_fwd_ r)) (vget (shuffle_bck_ r)).

(** A machine with every rotor and the entry wheel as above, and with a
    reflector and a plugboard that each undo themselves. *)
Definition machine_zero_ok (m : EnigmaMachine) : bool :=
  forallb rotor_zero_ok (rotors_ m)
  && rotor_zero_ok (etw_ m)
  && undoes (connect_fwd (ukw_ m)) (connect_fwd (ukw_ m))
  && undoes (vget (plugboard_ m)) (vget (plugboard_ m)).

(** The position of the first rotor after [n] calls of [keydown]. *)
Definition first_pos_after (n : nat) : Z := (16 - Z.of_nat n mod 16) mod 16.

(** Boolean form of: two alphabet characters with the same cipher
    character are equal, in the machine with the first rotor at [p]. *)
Definition injective_at (p : Z) : bool :=
  forallb (fun c1 =>
    forallb (fun c2 =>
      match cipher_char (first_at the_machine p) c1,
            cipher_char (first_at the_machine p) c2 with
      | Ok o1, Ok o2 => implb (o1 =? o2) (c1 =? c2)
      | _, _ => false
      end) (seqZ 65 26)) (seqZ 65 26).

(** * Properties *)

(** ** The result monad and the vector accessors *)

Lemma bind_Ok {A B} (f : A -> result B) (a : A) : (Ok a ≫= f) = f a.
Proof. reflexivity. Qed.

Lemma bind_Undefined {A B} (f : A -> result B) (w : ub) :
  (Undefined w ≫= f) = Undefined w.
Proof. reflexivity. Qed.

Lemma bind_Ok_inv {A B} (f : A -> result B) (m : result A) (b : B) :
  (m ≫= f) = Ok b -> exists a, m = Ok a /\ f a = Ok b.
Proof. destruct m as [a|w]; [eauto | discriminate]. Qed.

Lemma in_bounds_true (v : Shuffle) (i : Z) :
  in_bounds v i = true <-> 0 <= i < vsize v.
Proof. unfold in_bounds. rewrite andb_true_iff, Z.leb_le, Z.ltb_lt. tauto. Qed.

Lemma in_bounds_false (v : Shuffle) (i : Z) :
  in_bounds v i = false <-> ~ 0 <= i < vsize v.
Proof.
  rewrite <- in_bounds_true. destruct (in_bounds v i); split; congruence.
Qed.

Lemma vget_in (v : Shuffle) (i : Z) :
  0 <= i < vsize v ->
  exists x, vget v i = Ok x /\ v !! Z.to_nat i = Some x.
Proof.
  intros Hi. unfold vget.
  destruct (in_bounds v i) eqn:Hb; [| apply in_bounds_false in Hb; tauto].
  destruct (v !! Z.to_nat i) as [x|] eqn:Hx; [eauto |].
  apply lookup_ge_None in Hx. unfold vsize in Hi. lia.
Qed.

Lemma vget_out (v : Shuffle) (i : Z) :
  ~ 0 <= i < vsize v -> vget v i = Undefined (OutOfBounds (vsize v) i).
Proof.
  intros Hi. unfold vget. apply in_bounds_false in Hi. now rewrite Hi.
Qed.

Lemma vget_Ok_lookup (v : Shuffle) (i x : Z) :
  vget v i = Ok x -> 0 <= i < vsize v /\ v !! Z.to_nat i = Some x.
Proof.
  unfold vget. destruct (in_bounds v i) eqn:Hb; [| discriminate].
  apply in_bounds_true in Hb.
  destruct (v !! Z.to_nat i) eqn:Hx; [| discriminate].
  intros [= ->]. auto.
Qed.

Lemma vget_Forall (P : Z -> Prop) (v : Shuffle) (i : Z) :
  Forall P v -> 0 <= i < vsize v -> exists x, vget v i = Ok x /\ P x.
Proof.
  intros HP Hi. destruct (vget_in v i Hi) as (x & Hget & Hx).
  exists x. split; [exact Hget |].
  rewrite Forall_lookup in HP. eapply HP, Hx.
Qed.

Lemma vset_in (v : Shuffle) (i x : Z) :
  0 <= i < vsize v -> vset v i x = Ok (<[Z.to_nat i := x]> v).
Proof. intros Hi. unfold vset. apply in_bounds_true in Hi. now rewrite Hi. Qed.

Lemma vset_out (v : Shuffle) (i x : Z) :
  ~ 0 <= i < vsize v -> vset v i x = Undefined (OutOfBounds (vsize v) i).
Proof. intros Hi. unfold vset. apply in_bounds_false in Hi. now rewrite Hi. Qed.

Lemma usize_small (z : Z) : 0 <= z < 2 ^ 64 -> usize z = z.
Proof. intros H. unfold usize, size_wrap, SIZE_BITS. now apply Z.mod_small. Qed.

Lemma usize_nonneg (z : Z) : 0 <= usize z.
Proof. unfold usize, size_wrap, SIZE_BITS. apply Z.mod_pos_bound. lia. Qed.

Lemma u32_small (z : Z) : 0 <= z < 2 ^ 32 -> u32 z = z.
Proof. intros H. unfold u32. now apply Z.mod_small. Qed.

Lemma u32_range (z : Z) : 0 <= u32 z < 2 ^ 32.
Proof. unfold u32. apply Z.mod_pos_bound. lia. Qed.

(** ** The cipher path on well-formed machines *)

Lemma rem_len_wf (r : Rotor) (x : Z) :
  rotor_wf r -> 0 <= x -> exists idx, rem_len r x = Ok idx /\ index idx /\ idx = x mod 26.
Proof.
  intros Hr Hx. unfold rem_len. rewrite (wf_len r Hr). simpl.
  eexists; split; [reflexivity |]. split; [| reflexivity].
  unfold index. apply Z.mod_pos_bound. lia.
Qed.

Lemma connect_fwd_wf (r : Rotor) (x : Z) :
  rotor_wf r -> exists y, connect_fwd r x = Ok y /\ index y.
Proof.
  intros Hr. unfold connect_fwd.
  destruct (rem_len_wf r (usize (x + pos_ r)) Hr (usize_nonneg _))
    as (idx & -> & Hidx & _).
  rewrite bind_Ok. apply vget_Forall; [apply (wf_fwd_range r Hr) |].
  rewrite (wf_fwd_size r Hr). exact Hidx.
Qed.

Lemma connect_bck_wf (r : Rotor) (x : Z) :
  rotor_wf r -> exists y, connect_bck r x = Ok y /\ index y.
Proof.
  intros Hr. unfold connect_bck.
  destruct (rem_len_wf r (usize (x + pos_ r)) Hr (usize_nonneg _))
    as (idx & -> & Hidx & _).
  rewrite bind_Ok. apply vget_Forall; [apply (wf_bck_range r Hr) |].
  rewrite (wf_bck_size r Hr). exact Hidx.
Qed.

Lemma at_pos_wf (r : Rotor) (p : Z) : rotor_wf r -> index p -> rotor_wf (at_pos r p).
Proof. intros [] Hp. constructor; simpl; assumption. Qed.

(** [rotate] never faults on a well-formed rotor, whatever the turnover:
    the new position is the wrapped difference reduced modulo 26. *)
Lemma rotate_wf (r : Rotor) (t : Z) :
  rotor_wf r ->
  exists n, rotate r t = Ok (n, at_pos r (usize (pos_ r - t) mod 26))
            /\ rotor_wf (at_pos r (usize (pos_ r - t) mod 26))
            /\ vget (notches_ r) (usize (pos_ r - t) mod 26) = Ok n.
Proof.
  intros Hr. unfold rotate.
  destruct (rem_len_wf r (usize (pos_ r - t)) Hr (usize_nonneg _))
    as (idx & -> & Hidx & ->).
  rewrite bind_Ok. simpl.
  destruct (vget_in (notches_ r) (usize (pos_ r - t) mod 26)) as (n & Hn & _).
  { rewrite (wf_notch_size r Hr). exact Hidx. }
  exists n. rewrite Hn, bind_Ok. split; [reflexivity |].
  split; [apply at_pos_wf; assumption | reflexivity].
Qed.

Lemma keydown_loop_wf (rs : list Rotor) :
  Forall rotor_wf rs ->
  forall t, exists rs', keydown_loop rs t = Ok rs' /\ Forall rotor_wf rs'.
Proof.
  induction 1 as [| r rs Hr _ IH]; intros t; simpl.
  - exists []. split; [reflexivity | constructor].
  - destruct (rotate_wf r t Hr) as (n & -> & Hr' & _). rewrite bind_Ok.
    destruct (IH n) as (rs' & -> & Hrs'). rewrite bind_Ok.
    eexists; split; [reflexivity |]. constructor; assumption.
Qed.

Lemma keydown_wf (m : EnigmaMachine) :
  machine_wf m -> exists m', keydown m = Ok m' /\ machine_wf m'.
Proof.
  intros [Hrs Hps Hpr He Hu]. unfold keydown.
  destruct (keydown_loop_wf _ Hrs 1) as (rs' & -> & Hrs'). rewrite bind_Ok.
  eexists; split; [reflexivity |]. constructor; assumption.
Qed.

Lemma forward_pass_wf (rs : list Rotor) :
  Forall rotor_wf rs ->
  forall x out, index x ->
    exists y out', forward_pass rs x out = Ok (y, out') /\ index y.
Proof.
  induction 1 as [| r rs Hr _ IH]; intros x out Hx; simpl.
  - eauto.
  - destruct (connect_fwd_wf r x Hr) as (y & -> & Hy). rewrite bind_Ok.
    apply IH, Hy.
Qed.

Lemma backward_pass_wf (rs : list Rotor) :
  Forall rotor_wf rs ->
  forall x out, index x ->
    exists y out', backward_pass rs x out = Ok (y, out') /\ index y.
Proof.
  induction 1 as [| r rs Hr _ IH]; intros x out Hx; simpl.
  - eauto.
  - destruct (connect_bck_wf r x Hr) as (y & -> & Hy). rewrite bind_Ok.
    apply IH, Hy.
Qed.

Lemma valid_char_index (ch : Z) : valid_char ch -> u32 (ch - 65) = ch - 65 /\ index (ch - 65).
Proof.
  unfold valid_char, index. intros H. split; [apply u32_small |]; lia.
Qed.

Lemma index_to_char (x : Z) : index x -> valid_char (to_char (u32 (x + 65))).
Proof.
  unfold index, valid_char. intros H.
  rewrite u32_small by lia. unfold to_char.
  rewrite Z.mod_small by lia. lia.
Qed.

Lemma cipher_one_wf (m : EnigmaMachine) (ch : Z) :
  machine_wf m -> valid_char ch ->
  exists o diag, cipher_one m ch = Ok (o, diag) /\ valid_char o.
Proof.
  intros [Hrs Hps Hpr He Hu] Hch. unfold cipher_one.
  destruct (valid_char_index ch Hch) as [-> Hi].
  destruct (vget_Forall index (plugboard_ m) (ch - 65) Hpr) as (x1 & -> & H1).
  { rewrite Hps. exact Hi. }
  rewrite bind_Ok.
  destruct (connect_fwd_wf (etw_ m) x1 He) as (x2 & -> & H2). rewrite bind_Ok.
  destruct (forward_pass_wf _ Hrs x2 [] H2) as (x3 & out3 & -> & H3).
  rewrite bind_Ok.
  destruct (connect_fwd_wf (ukw_ m) x3 Hu) as (x4 & -> & H4). rewrite bind_Ok.
  assert (Hrev : Forall rotor_wf (reverse (rotors_ m))).
  { now apply Forall_reverse. }
  destruct (backward_pass_wf _ Hrev x4 ((out3 ++ [NEWLINE]) ++ [chr x4; NEWLINE]) H4)
    as (x5 & out5 & -> & H5).
  rewrite bind_Ok.
  destruct (connect_bck_wf (etw_ m) x5 He) as (x6 & -> & H6). rewrite bind_Ok.
  destruct (vget_Forall index (plugboard_ m) x6 Hpr) as (x7 & -> & H7).
  { rewrite Hps. exact H6. }
  rewrite bind_Ok.
  eexists _, _. split; [reflexivity |]. now apply index_to_char.
Qed.

(** ** Reachable machines are well formed *)

Lemma ctor_wf (m : EnigmaMachine) : EnigmaMachine_ctor = Ok m -> machine_wf m.
Proof.
  vm_compute. intros [= <-].
  repeat constructor; unfold index; simpl; lia.
Qed.

Lemma ctor_Ok : exists m, EnigmaMachine_ctor = Ok m.
Proof. eexists. vm_compute. reflexivity. Qed.

Lemma reachable_wf (m : EnigmaMachine) : reachable m -> machine_wf m.
Proof.
  induction 1 as [m Hm | m m' _ IH Hk].
  - now apply ctor_wf.
  - destruct (keydown_wf m IH) as (m'' & Hk' & Hwf). congruence.
Qed.

Lemma steps_reachable (n : nat) :
  exists m, steps n = Ok m /\ reachable m.
Proof.
  induction n as [| n (m & Hm & Hr)]; simpl.
  - destruct ctor_Ok as (m & Hm). exists m. split; [exact Hm | now constructor].
  - rewrite Hm, bind_Ok.
    destruct (keydown_wf m (reachable_wf m Hr)) as (m' & Hk & _).
    exists m'. split; [exact Hk | econstructor; eassumption].
Qed.

Lemma reachable_steps (m : EnigmaMachine) :
  reachable m -> exists n, steps n = Ok m.
Proof.
  induction 1 as [m Hm | m m' _ (n & Hn) Hk].
  - now exists 0%nat.
  - exists (S n). simpl. now rewrite Hn, bind_Ok.
Qed.

(** ** Construction of the substitution tables *)

(** The inverting loop, run on a duplicate-free table whose entries are
    valid indices of [bck]: it never faults, entry [fwd[k]] of the result
    holds the counter value at step [k], and entries that are not an
    output of [fwd] keep their initial value. *)
Lemma invert_loop_spec (fwd : Shuffle) :
  forall (bck : Shuffle) (i : Z),
    NoDup fwd ->
    Forall (fun e => 0 <= e < vsize bck) fwd ->
    0 <= i -> i + Z.of_nat (length fwd) < 2 ^ 32 ->
    exists bck',
      invert_loop fwd bck i = Ok bck'
      /\ length bck' = length bck
      /\ (forall (k : nat) (e : Z), fwd !! k = Some e ->
            bck' !! Z.to_nat e = Some (i + Z.of_nat k))
      /\ (forall j : nat, (forall e, e ∈ fwd -> Z.to_nat e <> j) ->
            bck' !! j = bck !! j).
Proof.
  induction fwd as [| e fwd IH]; intros bck i Hnd Hrng Hi Hlen; simpl.
  - exists bck. repeat split; auto.
    intros k e Hk. destruct k; discriminate.
  - apply NoDup_cons in Hnd as [Hnotin Hnd].
    apply Forall_cons in Hrng as [He Hrng].
    rewrite vset_in by exact He. rewrite bind_Ok.
    simpl in Hlen.
    assert (Hi' : u32 (i + 1) = i + 1) by (apply u32_small; lia).
    destruct (IH (<[Z.to_nat e := i]> bck) (u32 (i + 1)))
      as (bck' & Hrun & Hlen' & Hinv & Hframe).
    + exact Hnd.
    + eapply Forall_impl; [exact Hrng |].
      intros x Hx. unfold vsize in *. now rewrite length_insert.
    + rewrite Hi'. lia.
    + rewrite Hi'. lia.
    + exists bck'. split; [exact Hrun |].
      split; [now rewrite Hlen', length_insert |].
      split.
      * intros [| k] e' Hk; simpl in Hk.
        -- injection Hk as <-.
           rewrite Hframe.
           ++ rewrite list_lookup_insert_eq; [f_equal; lia |].
              unfold vsize in He. lia.
           ++ intros e0 Hin Heq.
              rewrite Forall_forall in Hrng. specialize (Hrng e0 Hin).
              assert (e0 = e) by lia. subst e0. contradiction.
        -- rewrite (Hinv k e' Hk), Hi'. f_equal. lia.
      * intros j Hj. rewrite Hframe.
        -- apply list_lookup_insert_ne. apply Hj. now left.
        -- intros e0 Hin. apply Hj. now right.
Qed.

Lemma Rotor_ctor_unfold (wiring : string) (notches : Shuffle) (p ring : Z) :
  Rotor_ctor wiring notches p ring =
    bck ← invert_loop (fwd_of wiring) (replicate (length (chars wiring)) 0) 0;
    Ok {| shuffle_fwd_ := fwd_of wiring; shuffle_bck_ := bck;
          notches_ := notches; len_ := vsize (u32 <$> chars wiring);
          pos_ := p |}.
Proof. reflexivity. Qed.

Lemma fwd_of_length (wiring : string) : length (fwd_of wiring) = length (chars wiring).
Proof. unfold fwd_of. now rewrite !length_fmap. Qed.

Lemma fwd_of_ALPHA : fwd_of ALPHA = seqZ 0 26.
Proof. vm_compute. reflexivity. Qed.

Lemma fwd_of_perm (wiring : string) :
  chars wiring ≡ₚ chars ALPHA -> fwd_of wiring ≡ₚ seqZ 0 26.
Proof.
  intros Hp. rewrite <- fwd_of_ALPHA. unfold fwd_of. now rewrite Hp.
Qed.

Lemma index_lookup (v : Shuffle) (i : Z) :
  vsize v = 26 -> index i -> exists x, v !! Z.to_nat i = Some x /\ vget v i = Ok x.
Proof.
  intros Hv Hi. destruct (vget_in v i) as (x & Hg & Hl); [unfold index in Hi; lia |].
  eauto.
Qed.

(** What the constructor establishes for a wiring that is a permutation of
    the alphabet: both tables have 26 entries, [backward] undoes [forward]
    and [forward] undoes [backward] on every index. *)
Lemma Rotor_ctor_perm (wiring : string) (notches : Shuffle) (p ring : Z) :
  chars wiring ≡ₚ chars ALPHA ->
  exists bck,
    Rotor_ctor wiring notches p ring =
      Ok {| shuffle_fwd_ := fwd_of wiring; shuffle_bck_ := bck;
            notches_ := notches; len_ := 26; pos_ := p |}
    /\ vsize (fwd_of wiring) = 26 /\ vsize bck = 26
    /\ Forall index (fwd_of wiring)
    /\ (forall (k : nat) (e : Z), fwd_of wiring !! k = Some e ->
          bck !! Z.to_nat e = Some (Z.of_nat k))
    /\ (forall y, index y -> exists k : nat, fwd_of wiring !! k = Some y).
Proof.
  intros Hp. pose proof (fwd_of_perm wiring Hp) as Hperm.
  assert (Hlen : length (chars wiring) = 26%nat).
  { rewrite <- fwd_of_length, Hperm. reflexivity. }
  assert (Hrange : Forall index (fwd_of wiring)).
  { rewrite Hperm. apply Forall_forall. intros x Hx.
    apply elem_of_seqZ in Hx. unfold index. lia. }
  destruct (invert_loop_spec (fwd_of wiring) (replicate (length (chars wiring)) 0) 0)
    as (bck & Hrun & Hblen & Hinv & _).
  - rewrite Hperm. apply NoDup_seqZ.
  - eapply Forall_impl; [exact Hrange |].
    intros x Hx. unfold index in Hx. unfold vsize.
    rewrite length_replicate, Hlen. lia.
  - lia.
  - rewrite fwd_of_length, Hlen. lia.
  - exists bck. rewrite Rotor_ctor_unfold, Hrun, bind_Ok.
    unfold vsize. rewrite length_fmap, Hlen, Hblen, length_replicate, Hlen.
    rewrite fwd_of_length, Hlen.
    repeat split; [exact Hrange | |].
    + intros k e Hk. rewrite (Hinv k e Hk). f_equal.
    + intros y Hy. apply list_elem_of_lookup_1. rewrite Hperm.
      apply elem_of_seqZ. unfold index in Hy. lia.
Qed.

(** ** The entry point *)

Lemma isspace_valid (x : Z) : valid_char x -> isspace x = false.
Proof.
  unfold valid_char, isspace. intros H. apply orb_false_iff. split.
  - apply andb_false_iff. right. apply Z.leb_gt. lia.
  - apply Z.eqb_neq. lia.
Qed.

Lemma skipws_nonspace (x : Z) (rest : list Z) :
  isspace x = false -> skipws (x :: rest) = x :: rest.
Proof. intros H. cbn [skipws]. now rewrite H. Qed.

Lemma loop_body_next (s : Main) (x : Z) (rest : list Z) (k : nat) :
  steps k = Ok (machine s) -> cin s = x :: rest -> valid_char x ->
  exists m o diag,
    steps (S k) = Ok m /\ cipher_one m x = Ok (o, diag)
    /\ loop_body s =
         Ok {| machine := m; c := Some x; cin := rest; cin_good := true;
               cout := cout s ++ diag ++ [o; NEWLINE] |}.
Proof.
  intros Hk Hcin Hx.
  destruct (steps_reachable k) as (mk & Hmk & Hreach).
  assert (mk = machine s) by congruence. subst mk.
  destruct (keydown_wf _ (reachable_wf _ Hreach)) as (m' & Hkd & Hwf').
  destruct (cipher_one_wf m' x Hwf' Hx) as (o & diag & Hc & _).
  exists m', o, diag. split; [cbn [steps]; now rewrite Hk, bind_Ok |].
  split; [exact Hc |].
  unfold loop_body.
  rewrite Hcin, (skipws_nonspace x rest (isspace_valid x Hx)), Hkd, bind_Ok.
  cbn beta iota. now rewrite bind_Ok, Hc, bind_Ok.
Qed.

Lemma loop_body_eof (s : Main) (x : Z) (k : nat) :
  steps k = Ok (machine s) -> cin s = [] -> c s = Some x -> valid_char x ->
  exists m o diag,
    steps (S k) = Ok m /\ cipher_one m x = Ok (o, diag)
    /\ loop_body s =
         Ok {| machine := m; c := Some x; cin := []; cin_good := false;
               cout := cout s ++ diag ++ [o; NEWLINE] |}.
Proof.
  intros Hk Hcin Hc Hx.
  destruct (steps_reachable k) as (mk & Hmk & Hreach).
  assert (mk = machine s) by congruence. subst mk.
  destruct (keydown_wf _ (reachable_wf _ Hreach)) as (m' & Hkd & Hwf').
  destruct (cipher_one_wf m' x Hwf' Hx) as (o & diag & Hco & _).
  exists m', o, diag. split; [cbn [steps]; now rewrite Hk, bind_Ok |].
  split; [exact Hco |].
  unfold loop_body. rewrite Hcin. cbn [skipws].
  rewrite Hkd, bind_Ok, Hc. cbn beta iota.
  now rewrite bind_Ok, Hco, bind_Ok.
Qed.


(** All characters of the stream processed: the stream is empty but still
    good, and [c] holds the last character. *)
Lemma iterations_all (xs : list Z) :
  forall (s : Main) (k : nat),
    steps k = Ok (machine s) -> cin s = xs -> cin_good s = true ->
    Forall valid_char xs ->
    exists s',
      iterations (length xs) s = Ok s'
      /\ steps (k + length xs) = Ok (machine s')
      /\ cin s' = [] /\ cin_good s' = true
      /\ c s' = match last xs with Some x => Some x | None => c s end.
Proof.
  induction xs as [| x xs IH]; intros s k Hk Hcin Hgood Hvalid.
  - exists s. rewrite Nat.add_0_r. auto.
  - apply Forall_cons in Hvalid as [Hx Hxs].
    destruct (loop_body_next s x xs k Hk Hcin Hx) as (m & o & diag & Hm & _ & Hbody).
    cbn [length iterations]. rewrite Hbody, bind_Ok.
    set (s1 := {| machine := m; c := Some x; cin := xs; cin_good := true;
                  cout := cout s ++ diag ++ [o; NEWLINE] |}).
    destruct (IH s1 (S k) Hm eq_refl eq_refl Hxs) as (s' & Hit & Hst & Hc1 & Hg & Hc2).
    exists s'. split; [exact Hit |].
    split; [now rewrite Nat.add_succ_r |].
    do 2 (split; [assumption |]).
    rewrite Hc2, last_cons. cbn [c]. now destruct (last xs).
Qed.

(** As long as alphabet characters remain the stream stays good, so the
    loop of [main] performs the passes one after the other: [n] units of
    fuel are used up by [n] passes. *)
Lemma main_while_prefix (n : nat) :
  forall (s : Main) (k fuel : nat),
    steps k = Ok (machine s) -> cin_good s = true ->
    Forall valid_char (cin s) -> (n <= length (cin s))%nat ->
    exists s',
      iterations n s = Ok s'
      /\ main_while (n + fuel) s = main_while fuel s'
      /\ cin_good s' = true.
Proof.
  induction n as [| n IH]; intros s k fuel Hk Hgood Hvalid Hn.
  - exists s. auto.
  - destruct (cin s) as [| x rest] eqn:Hcin; simpl in Hn; [lia |].
    apply Forall_cons in Hvalid as [Hx Hrest].
    destruct (loop_body_next s x rest k Hk Hcin Hx)
      as (m' & o & diag & Hm & _ & Hbody).
    cbn [iterations Nat.add main_while]. rewrite Hgood, Hbody, !bind_Ok.
    set (s1 := {| machine := m'; c := Some x; cin := rest; cin_good := true;
                  cout := cout s ++ diag ++ [o; NEWLINE] |}).
    apply (IH s1 (S k) fuel Hm eq_refl Hrest). simpl. lia.
Qed.

Lemma iterations_app (a b : nat) :
  forall s, iterations (a + b) s = s' ← iterations a s; iterations b s'.
Proof.
  induction a as [| a IHa]; intros s; cbn [Nat.add iterations]; [reflexivity |].
  destruct (loop_body s); [now rewrite !bind_Ok | reflexivity].
Qed.

Lemma main_start_Ok (input : list Z) :
  exists m1,
    steps 1 = Ok m1
    /\ main_start input =
         Ok {| machine := m1; c := None; cin := input; cin_good := true;
               cout := [] |}.
Proof.
  destruct (steps_reachable 1) as (m1 & Hm1 & _). exists m1.
  split; [exact Hm1 |].
  unfold main_start. cbn [steps] in Hm1. destruct ctor_Ok as (mc & Hmc).
  rewrite Hmc in Hm1 |- *. rewrite bind_Ok in Hm1. rewrite bind_Ok.
  now rewrite Hm1.
Qed.


(** The fuel of [main_while] is enough: on a non-empty input of alphabet
    characters [main] leaves the loop with [good()] false, after one pass
    per character and a last pass that enciphers the stale [c] again. *)
Lemma main_returns (input : list Z) :
  Forall valid_char input -> input <> [] ->
  exists s,
    main input = Ok s /\ cin_good s = false
    /\ steps (length input + 2) = Ok (machine s).
Proof.
  intros Hvalid Hne.
  destruct (main_start_Ok input) as (m1 & Hm1 & Hstart).
  set (s0 := {| machine := m1; c := None; cin := input; cin_good := true;
                cout := [] |}) in *.
  destruct (iterations_all input s0 1 Hm1 eq_refl eq_refl Hvalid)
    as (s1 & Hit & Hst & Hcin & Hgood & Hc).
  destruct (main_while_prefix (length input) s0 1 1 Hm1 eq_refl Hvalid
              (Nat.le_refl _)) as (s1' & Hit' & Hwhile & _).
  assert (s1' = s1) by congruence. subst s1'.
  destruct (last input) as [x |] eqn:Hlast;
    [| apply last_None in Hlast; contradiction].
  assert (Hx : valid_char x).
  { rewrite Forall_forall in Hvalid. apply Hvalid.
    apply last_Some in Hlast as (l' & ->). apply elem_of_app. right. now left. }
  destruct (loop_body_eof s1 x _ Hst Hcin Hc Hx) as (m & o & diag & Hm & _ & Hbody).
  unfold main. rewrite Hstart, bind_Ok.
  replace (S (length input)) with (length input + 1)%nat by lia.
  rewrite Hwhile. cbn [main_while]. rewrite Hgood, Hbody, bind_Ok.
  eexists. split; [reflexivity |]. split; [reflexivity |].
  cbn [machine]. now replace (length input + 2)%nat with (S (1 + length input)) by lia.
Qed.

(** X20.  On an empty input the only pass through the loop body reads [c]
    before anything was stored in it: the run is undefined. *)
Lemma main_empty_input : main [] = Undefined Uninitialised.
Proof. vm_compute. reflexivity. Qed.

(** ** The constructed machine *)

Lemma ctor_the_machine : EnigmaMachine_ctor = Ok the_machine.
Proof. vm_compute. reflexivity. Qed.

Lemma index_seqZ (x : Z) : index x <-> x ∈ seqZ 0 26.
Proof. unfold index. rewrite elem_of_seqZ. lia. Qed.

Lemma forallb_index (f : Z -> bool) :
  forallb f (seqZ 0 26) = true -> forall x, index x -> f x = true.
Proof.
  intros H x Hx. rewrite forallb_forall in H. apply H.
  apply list_elem_of_In. now apply index_seqZ.
Qed.

(** At the positions the constructor sets (all zero) the cipher is
    reciprocal on the whole alphabet. *)
Lemma cipher_reciprocal_at_construction (ch : Z) :
  valid_char ch -> reciprocal the_machine ch = true.
Proof.
  intros Hch.
  replace ch with ((ch - 65) + 65) by lia.
  apply (forallb_index (fun x => reciprocal the_machine (x + 65))).
  - vm_compute. reflexivity.
  - unfold valid_char in Hch. unfold index. lia.
Qed.

(** With enough head room [rotate] is the plain decrement: whenever the
    turnover does not exceed the position, no wrap-around takes place. *)
Lemma rotate_no_wrap (r : Rotor) (t : Z) :
  rotor_wf r -> 0 <= t <= pos_ r ->
  exists n, rotate r t = Ok (n, at_pos r (pos_ r - t))
            /\ vget (notches_ r) (pos_ r - t) = Ok n.
Proof.
  intros Hr Ht. destruct (rotate_wf r t Hr) as (n & Hrot & _ & Hn).
  pose proof (wf_pos r Hr) as Hp. unfold index in Hp.
  assert (Heq : usize (pos_ r - t) mod 26 = pos_ r - t).
  { rewrite usize_small by lia. apply Z.mod_small. lia. }
  rewrite Heq in Hrot, Hn. eauto.
Qed.

(** The wrapped value of [0 - 1] reduced modulo 26, for both usual widths
    of [size_type]: neither is 25. *)
Lemma size_wrap_minus_one :
  size_wrap 64 (0 - 1) mod 26 = 15 /\ size_wrap 32 (0 - 1) mod 26 = 21.
Proof. split; reflexivity. Qed.

(** The stepping chain of [keydown]: the first rotor is rotated with
    turnover 1, and its new position is the wrapped decrement. *)
Lemma keydown_first_rotor (m : EnigmaMachine) (r : Rotor) (rs : list Rotor) :
  machine_wf m -> rotors_ m = r :: rs ->
  exists m' n rs',
    keydown m = Ok m'
    /\ rotate r 1 = Ok (n, at_pos r (usize (pos_ r - 1) mod 26))
    /\ keydown_loop rs n = Ok rs'
    /\ rotors_ m' = at_pos r (usize (pos_ r - 1) mod 26) :: rs'.
Proof.
  intros Hm Hrs. pose proof (wf_rotors m Hm) as Hwf. rewrite Hrs in Hwf.
  apply Forall_cons in Hwf as [Hr Hrest].
  destruct (rotate_wf r 1 Hr) as (n & Hrot & _ & _).
  destruct (keydown_loop_wf rs Hrest n) as (rs' & Hloop & _).
  unfold keydown. rewrite Hrs. simpl. rewrite Hrot, bind_Ok, Hloop, !bind_Ok.
  eexists _, n, rs'. repeat split; eauto.
Qed.

(** At position 0 the two directions of a rotor built from a permutation
    wiring are inverse to each other. *)
Lemma round_trip_at_zero (wiring : string) (notches : Shuffle) (ring : Z) (r : Rotor) (x : Z) :
  chars wiring ≡ₚ chars ALPHA ->
  Rotor_ctor wiring notches 0 ring = Ok r ->
  index x ->
  exists y, connect_fwd r x = Ok y /\ connect_bck r y = Ok x.
Proof.
  intros Hp Hr Hx.
  destruct (Rotor_ctor_perm wiring notches 0 ring Hp)
    as (bck & Hctor & Hf & Hb & Hrng & Hinv & _).
  rewrite Hctor in Hr. injection Hr as <-.
  unfold connect_fwd, connect_bck, rem_len. simpl.
  unfold index in Hx. rewrite Z.add_0_r, usize_small by lia.
  rewrite Z.mod_small by lia.
  destruct (vget_in (fwd_of wiring) x) as (y & Hy & Hly); [lia |].
  exists y. split; [exact Hy |].
  rewrite Forall_lookup in Hrng. pose proof (Hrng _ _ Hly) as Hyi.
  unfold index in Hyi. rewrite Z.add_0_r, usize_small by lia.
  rewrite Z.mod_small by lia.
  destruct (vget_in bck y) as (x' & Hx' & Hlx'); [lia |].
  rewrite Hx'. f_equal.
  rewrite (Hinv _ _ Hly) in Hlx'. injection Hlx' as <-. lia.
Qed.

(** The inverting loop faults only on an entry outside [bck]; duplicates
    among the entries go unnoticed. *)
Lemma invert_loop_total (fwd : Shuffle) :
  forall (bck : Shuffle) (i : Z),
    Forall (fun e => 0 <= e < vsize bck) fwd ->
    exists bck', invert_loop fwd bck i = Ok bck' /\ length bck' = length bck.
Proof.
  induction fwd as [| e fwd IH]; intros bck i Hrng; simpl.
  - eauto.
  - apply Forall_cons in Hrng as [He Hrng].
    rewrite vset_in by exact He. rewrite bind_Ok.
    destruct (IH (<[Z.to_nat e := i]> bck) (u32 (i + 1))) as (bck' & Hrun & Hlen).
    + eapply Forall_impl; [exact Hrng |].
      intros x Hx. unfold vsize in *. now rewrite length_insert.
    + exists bck'. split; [exact Hrun |]. now rewrite Hlen, length_insert.
Qed.

Lemma chars_range (s : string) : Forall (fun ch => -128 <= ch <= 127) (chars s).
Proof.
  unfold chars. apply Forall_fmap, Forall_forall. intros a _. simpl.
  unfold char_of_ascii, to_char.
  pose proof (Z.mod_pos_bound (Z.of_N (N_of_ascii a) + 128) 256). lia.
Qed.

Lemma fwd_of_letters (wiring : string) :
  Forall (fun ch => 65 <= ch) (chars wiring) ->
  fwd_of wiring = (fun ch => ch - 65) <$> chars wiring.
Proof.
  intros H. unfold fwd_of. rewrite <- list_fmap_compose.
  apply Forall_fmap_ext. pose proof (chars_range wiring) as Hr.
  rewrite Forall_forall in *. intros ch Hin. simpl.
  specialize (H ch Hin). specialize (Hr ch Hin). simpl in Hr.
  unfold a_. rewrite (u32_small ch) by lia. apply u32_small. lia.
Qed.

(** The stepping chain never gets past the first rotor: starting from the
    constructed machine its position cycles through 0, 15, 14, ..., 1, never
    reaching the notch at 25, so the second and third rotor stay at 0
    whatever the number of keystrokes. *)
Lemma upper_rotors_never_turn (n : nat) :
  exists p, 0 <= p <= 15 /\ steps n = Ok (first_at the_machine p)
            /\ positions (first_at the_machine p) = [p; 0; 0].
Proof.
  induction n as [| n (p & Hp & Hn & _)].
  - exists 0. split; [lia |]. split; vm_compute; reflexivity.
  - assert (Hstep : first_only p = true).
    { assert (Hall : forallb first_only (seqZ 0 16) = true)
        by (vm_compute; reflexivity).
      rewrite forallb_forall in Hall. apply Hall, list_elem_of_In.
      apply elem_of_seqZ. lia. }
    unfold first_only in Hstep.
    destruct (keydown (first_at the_machine p)) as [m' |] eqn:Hk; [| discriminate].
    apply andb_true_iff in Hstep as [Hpos Hm'].
    apply bool_decide_eq_true_1 in Hpos, Hm'. subst m'.
    exists (next_pos p). split.
    + unfold next_pos. destruct (p =? 0) eqn:H0; lia.
    + split; [| exact Hpos]. cbn [steps]. now rewrite Hn, bind_Ok.
Qed.

(** ** Claims *)

(** C1, refuted on the code.  The claim: at fixed rotor positions
    [cipher_one (cipher_one c) = c] for every valid character.  The code: in
    the state [main] first enciphers in (positions 14, 0, 0, after two calls
    of [keydown]) the letter 'A' is enciphered to 'H' and 'H' to 'J'. *)
Theorem cipher_one_not_reciprocal :
  exists m,
    steps 2 = Ok m /\ positions m = [14; 0; 0]
    /\ cipher_char m 65 = Ok 72 /\ cipher_char m 72 = Ok 74.
Proof. eexists. repeat split; vm_compute; reflexivity. Qed.

(** C2, refuted on the code.  The claim: at any fixed position
    [connect_bck (connect_fwd x) = x].  The code: for the first rotor at
    position 14 (its position after two calls of [keydown]),
    [connect_fwd 0] is 24 and [connect_bck 24] is 2. *)
Theorem connect_round_trip_fails :
  exists m r rs,
    steps 2 = Ok m /\ rotors_ m = r :: rs /\ pos_ r = 14
    /\ connect_fwd r 0 = Ok 24 /\ connect_bck r 24 = Ok 2.
Proof. eexists _, _, _. repeat split; vm_compute; reflexivity. Qed.

(** C3, refuted on the code.  The claim: [rotate] decrements the position
    modulo the alphabet length, 0 wrapping to 25.  The code: on the first
    rotor of the constructed machine (position 0, length 26), [rotate 1]
    leaves the position at 15, the remainder of the wrapped [size_type]
    difference, where the decrement modulo 26 is 25. *)
Theorem rotate_wraps_to_15 :
  exists m r rs,
    EnigmaMachine_ctor = Ok m /\ rotors_ m = r :: rs
    /\ pos_ r = 0 /\ len_ r = 26
    /\ rotate r 1 = Ok (0, at_pos r 15)
    /\ (pos_ r - 1) mod len_ r = 25.
Proof. eexists _, _, _. repeat split; vm_compute; reflexivity. Qed.

(** C4.  For a wiring string of 26 characters that is a permutation of the
    alphabet, construction succeeds, both tables have 26 entries, every
    index [i] has [forward[i]] an index with [backward[forward[i]] = i], and
    every index [y] is [forward[i]] for the index [i = backward[y]]: the
    forward table is a bijection on 0..25 and the backward table its
    inverse. *)
Theorem Rotor_ctor_bijection (wiring : string) (notches : Shuffle) (p ring : Z) :
  String.length wiring = 26%nat ->
  chars wiring ≡ₚ chars ALPHA ->
  exists r,
    Rotor_ctor wiring notches p ring = Ok r
    /\ vsize (shuffle_fwd_ r) = 26 /\ vsize (shuffle_bck_ r) = 26
    /\ (forall i, index i ->
          exists y, vget (shuffle_fwd_ r) i = Ok y /\ index y
                    /\ vget (shuffle_bck_ r) y = Ok i)
    /\ (forall y, index y ->
          exists i, vget (shuffle_bck_ r) y = Ok i /\ index i
                    /\ vget (shuffle_fwd_ r) i = Ok y).
Proof.
  intros _ Hp.
  destruct (Rotor_ctor_perm wiring notches p ring Hp)
    as (bck & Hctor & Hf & Hb & Hrng & Hinv & Hsurj).
  eexists. split; [exact Hctor |]. simpl.
  split; [exact Hf |]. split; [exact Hb |].
  assert (Hfwd : forall i, index i ->
            exists y, vget (fwd_of wiring) i = Ok y /\ index y
                      /\ vget bck y = Ok i).
  { intros i Hi.
    destruct (index_lookup _ i Hf Hi) as (y & Hly & Hy).
    exists y. split; [exact Hy |].
    rewrite Forall_lookup in Hrng. pose proof (Hrng _ _ Hly) as Hyi.
    split; [exact Hyi |].
    destruct (index_lookup _ y Hb Hyi) as (i' & Hli' & Hi').
    rewrite Hi'. f_equal.
    rewrite (Hinv _ _ Hly) in Hli'. injection Hli' as <-.
    unfold index in Hi. lia. }
  split; [exact Hfwd |].
  intros y Hy. destruct (Hsurj y Hy) as (k & Hk).
  assert (Hki : index (Z.of_nat k)).
  { apply lookup_lt_Some in Hk. unfold vsize in Hf. unfold index. lia. }
  destruct (Hfwd (Z.of_nat k) Hki) as (y' & Hy' & _ & Hback).
  apply vget_Ok_lookup in Hy' as Hl. destruct Hl as [_ Hl].
  rewrite Nat2Z.id, Hk in Hl. injection Hl as <-.
  exists (Z.of_nat k). auto.
Qed.

Lemma Rotor_ctor_bijection_witness :
  exists r,
    Rotor_ctor rotors.i [] 0 0 = Ok r
    /\ vsize (shuffle_fwd_ r) = 26 /\ vsize (shuffle_bck_ r) = 26
    /\ (forall i, index i ->
          exists y, vget (shuffle_fwd_ r) i = Ok y /\ index y
                    /\ vget (shuffle_bck_ r) y = Ok i)
    /\ (forall y, index y ->
          exists i, vget (shuffle_bck_ r) y = Ok i /\ index i
                    /\ vget (shuffle_fwd_ r) i = Ok y).
Proof.
  apply (Rotor_ctor_bijection rotors.i [] 0 0); [reflexivity | compute_done].
Defined.

(** [keydown] touches the rotor stack only: plugboard, entry wheel and
    reflector of every reachable machine are those of the constructor. *)
Lemma reachable_fixed (m : EnigmaMachine) :
  reachable m ->
  plugboard_ m = plugboard_ the_machine
  /\ etw_ m = etw_ the_machine /\ ukw_ m = ukw_ the_machine.
Proof.
  induction 1 as [m Hm | m m' _ IH Hk].
  - rewrite ctor_the_machine in Hm. injection Hm as <-. auto.
  - unfold keydown in Hk. apply bind_Ok_inv in Hk as (rs & _ & Hk).
    injection Hk as <-. exact IH.
Qed.

(** C5.  In every state of the constructed machine the reflector (never
    stepped, position 0), applied forward, maps each index [x] of 0..25 to
    an index different from [x] that it maps back to [x]. *)
Theorem reflector_involution (m : EnigmaMachine) (x : Z) :
  reachable m -> index x ->
  exists y, reflector_forward m x = Ok y /\ y <> x /\ reflector_forward m y = Ok x.
Proof.
  intros Hm Hx. destruct (reachable_fixed m Hm) as (_ & _ & Hu).
  assert (H : reflects the_machine x = true).
  { revert x Hx. apply forallb_index. vm_compute. reflexivity. }
  unfold reflects, reflector_forward in *. rewrite Hu.
  destruct (connect_fwd (ukw_ the_machine) x) as [y |]; [| discriminate].
  apply andb_true_iff in H as [Hne Hback].
  exists y. split; [reflexivity |].
  split; [apply negb_true_iff, Z.eqb_neq in Hne; exact Hne |].
  destruct (connect_fwd (ukw_ the_machine) y) as [x' |]; [| discriminate].
  apply Z.eqb_eq in Hback. now subst.
Qed.

Lemma reflector_involution_witness :
  exists y,
    reflector_forward the_machine 0 = Ok y /\ y <> 0
    /\ reflector_forward the_machine y = Ok 0.
Proof.
  apply (reflector_involution the_machine 0).
  - apply reach_ctor. vm_compute. reflexivity.
  - unfold index. lia.
Defined.

(** C6, refuted on the code.  The claim: one [keydown] moves the first
    rotor by exactly one step modulo 26.  The code: from the constructed
    machine (positions 0, 0, 0) one [keydown], which does feed turnover 1 to
    the first rotor, leaves the positions at 15, 0, 0; one step from 0
    modulo 26 is 25 (or 1 counting upwards). *)
Theorem keydown_first_rotor_wraps :
  exists m m',
    EnigmaMachine_ctor = Ok m /\ keydown m = Ok m'
    /\ positions m = [0; 0; 0] /\ positions m' = [15; 0; 0]
    /\ (0 - 1) mod 26 = 25 /\ (0 + 1) mod 26 = 1.
Proof. eexists _, _. repeat split; vm_compute; reflexivity. Qed.

(** C7 as stated fails: a two-letter wiring and a wiring of 26 equal
    letters are both accepted, the second with a forward table that is
    constantly 0 and a backward table holding 25 at index 0. *)
Lemma malformed_wiring_accepted :
  (String.length "AB" <> 26%nat
   /\ exists r, Rotor_ctor "AB" [] 0 0 = Ok r /\ len_ r = 2)
  /\ (~ chars "AAAAAAAAAAAAAAAAAAAAAAAAAA" ≡ₚ chars ALPHA
      /\ exists r, Rotor_ctor "AAAAAAAAAAAAAAAAAAAAAAAAAA" [] 0 0 = Ok r
           /\ shuffle_fwd_ r = replicate 26 0
           /\ shuffle_bck_ r = 25 :: replicate 25 0).
Proof.
  split; split.
  - simpl. lia.
  - eexists. split; vm_compute; reflexivity.
  - compute_done.
  - eexists. repeat split; vm_compute; reflexivity.
Qed.

(** C7, amended.  The constructor validates nothing: for every wiring
    string, of whatever length, whose characters all lie among the first
    [n] letters from 'A', [n] being its length, construction succeeds with
    [forward[i] = wiring[i] - 'A'], [n] backward entries and [len_ = n],
    whether or not the wiring is a permutation. *)
Theorem Rotor_ctor_accepts (wiring : string) (notches : Shuffle) (p ring : Z) :
  Forall (fun ch => 65 <= ch < 65 + vsize (chars wiring)) (chars wiring) ->
  exists bck,
    Rotor_ctor wiring notches p ring =
      Ok {| shuffle_fwd_ := (fun ch => ch - 65) <$> chars wiring;
            shuffle_bck_ := bck; notches_ := notches;
            len_ := vsize (chars wiring); pos_ := p |}
    /\ vsize bck = vsize (chars wiring).
Proof.
  intros H.
  assert (Hfwd : fwd_of wiring = (fun ch => ch - 65) <$> chars wiring).
  { apply fwd_of_letters. eapply Forall_impl; [exact H |]. simpl. lia. }
  destruct (invert_loop_total (fwd_of wiring)
              (replicate (length (chars wiring)) 0) 0) as (bck & Hrun & Hlen).
  - rewrite Hfwd. apply Forall_fmap. eapply Forall_impl; [exact H |].
    intros ch Hch. simpl. unfold vsize in *. rewrite length_replicate. lia.
  - exists bck. rewrite Rotor_ctor_unfold, Hrun, bind_Ok, Hfwd.
    unfold vsize. rewrite length_fmap, Hlen, length_replicate. auto.
Qed.

Lemma Rotor_ctor_accepts_witness :
  exists bck,
    Rotor_ctor "ABA" [] 0 0 =
      Ok {| shuffle_fwd_ := (fun ch => ch - 65) <$> chars "ABA";
            shuffle_bck_ := bck; notches_ := [];
            len_ := vsize (chars "ABA"); pos_ := 0 |}
    /\ vsize bck = vsize (chars "ABA").
Proof.
  apply (Rotor_ctor_accepts "ABA" [] 0 0). compute_done.
Defined.

(** C8 as stated fails: given 'a' the machine [main] first enciphers with
    reads entry 32 of the 26-entry plugboard; nothing is rejected or
    reported. *)
Lemma cipher_one_indexes_out_of_range :
  exists m, steps 2 = Ok m /\ ~ valid_char 97
    /\ cipher_one m 97 = Undefined (OutOfBounds 26 32).
Proof.
  eexists. split; [vm_compute; reflexivity |].
  split; [unfold valid_char; lia | vm_compute; reflexivity].
Qed.

(** C8, amended.  [cipher_one] validates nothing: in every reachable state,
    a character outside 'A'..'Z' is turned into the [uint32_t] value of
    [c - 'A'], which is at least 26, and the plugboard, of 26 entries, is
    indexed with it: an out-of-range lookup, not an error result. *)
Theorem cipher_one_invalid_char (m : EnigmaMachine) (ch : Z) :
  reachable m -> -128 <= ch <= 127 -> ~ valid_char ch ->
  26 <= u32 (ch - 65)
  /\ cipher_one m ch = Undefined (OutOfBounds 26 (u32 (ch - 65))).
Proof.
  intros Hm Hch Hinv.
  pose proof (wf_plug_size m (reachable_wf m Hm)) as Hsize.
  assert (Hidx : 26 <= u32 (ch - 65)).
  { unfold valid_char in Hinv. unfold u32.
    destruct (Z_lt_le_dec ch 65) as [Hlo | Hhi].
    - replace (ch - 65) with (ch - 65 + 2 ^ 32 + (-1) * 2 ^ 32) by lia.
      rewrite Z_mod_plus_full, Z.mod_small; lia.
    - rewrite Z.mod_small; lia. }
  split; [exact Hidx |].
  unfold cipher_one. rewrite vget_out by lia.
  now rewrite Hsize, bind_Undefined.
Qed.

Lemma cipher_one_invalid_char_witness :
  26 <= u32 (97 - 65)
  /\ cipher_one the_machine 97 = Undefined (OutOfBounds 26 (u32 (97 - 65))).
Proof.
  apply (cipher_one_invalid_char the_machine 97).
  - apply reach_ctor. vm_compute. reflexivity.
  - lia.
  - unfold valid_char. lia.
Defined.

(** C9.  In every state reachable from the constructed machine by calls of
    [keydown], [keydown] returns normally (into a reachable state) and, for
    every character of the alphabet, so does [cipher_one], with a character
    of the alphabet: no lookup of either leaves its table (a lookup outside
    a table yields [Undefined], which every later step propagates). *)
Theorem lookups_in_bounds (m : EnigmaMachine) (ch : Z) :
  reachable m -> valid_char ch ->
  (exists m', keydown m = Ok m' /\ reachable m')
  /\ (exists o diag, cipher_one m ch = Ok (o, diag) /\ valid_char o).
Proof.
  intros Hm Hch. pose proof (reachable_wf m Hm) as Hwf. split.
  - destruct (keydown_wf m Hwf) as (m' & Hk & _).
    exists m'. split; [exact Hk | econstructor; eassumption].
  - now apply cipher_one_wf.
Qed.

Lemma lookups_in_bounds_witness :
  (exists m', keydown the_machine = Ok m' /\ reachable m')
  /\ (exists o diag, cipher_one the_machine 65 = Ok (o, diag) /\ valid_char o).
Proof.
  apply (lookups_in_bounds the_machine 65).
  - apply reach_ctor. vm_compute. reflexivity.
  - unfold valid_char. lia.
Defined.



(** * Further properties of the code *)

(** ** make_notches *)

Lemma make_notches_loop_spec (vals : list Z) :
  forall ret : Shuffle,
    Forall (fun v => 0 <= v < vsize ret) vals ->
    exists ret',
      make_notches_loop ret vals = Ok ret'
      /\ length ret' = length ret
      /\ (forall i, 0 <= i < vsize ret ->
            ret' !! Z.to_nat i =
              if bool_decide (i ∈ vals) then Some 1 else ret !! Z.to_nat i).
Proof.
  induction vals as [| val vals IH]; intros ret Hrng; simpl.
  - exists ret. do 2 (split; [reflexivity |]). intros i _. reflexivity.
  - apply Forall_cons in Hrng as [Hval Hrng].
    rewrite vset_in by exact Hval. rewrite bind_Ok.
    destruct (IH (<[Z.to_nat val := 1]> ret)) as (ret' & Hrun & Hlen & Hget).
    + eapply Forall_impl; [exact Hrng |].
      intros x Hx. unfold vsize in *. now rewrite length_insert.
    + exists ret'. split; [exact Hrun |].
      split; [now rewrite Hlen, length_insert |].
      intros i Hi. rewrite Hget by (unfold vsize in *; now rewrite length_insert).
      destruct (decide (i ∈ vals)) as [Hin | Hnin].
      * rewrite !bool_decide_eq_true_2; [reflexivity | now right | exact Hin].
      * rewrite (bool_decide_eq_false_2 _ Hnin).
        destruct (decide (i = val)) as [-> | Hne].
        -- rewrite bool_decide_eq_true_2 by now left.
           apply list_lookup_insert_eq. unfold vsize in Hval. lia.
        -- rewrite bool_decide_eq_false_2.
           ++ apply list_lookup_insert_ne. lia.
           ++ intros Hc. apply elem_of_cons in Hc as [? | ?]; contradiction.
Qed.

(** X1.  When every listed value is below [len], [make_notches] returns a
    vector of [len] flags whose entry [i] is 1 exactly when [i] is listed,
    and 0 otherwise; repeated values are harmless. *)
Theorem make_notches_flags (len : Z) (vals : list Z) :
  0 <= len -> Forall (fun v => 0 <= v < len) vals ->
  exists ret,
    make_notches len vals = Ok ret
    /\ vsize ret = len
    /\ (forall i, 0 <= i < len ->
          vget ret i = Ok (if bool_decide (i ∈ vals) then 1 else 0)).
Proof.
  intros Hlen Hvals. unfold make_notches.
  assert (Hsize : vsize (replicate (Z.to_nat len) 0) = len).
  { unfold vsize. rewrite length_replicate. lia. }
  destruct (make_notches_loop_spec vals (replicate (Z.to_nat len) 0))
    as (ret & Hrun & Hl & Hget).
  { now rewrite Hsize. }
  assert (Hret : vsize ret = len) by (unfold vsize in *; now rewrite Hl).
  exists ret. split; [exact Hrun |]. split; [exact Hret |].
  intros i Hi. destruct (vget_in ret i) as (x & Hx & Hlx); [lia |].
  rewrite Hx. f_equal. rewrite Hget in Hlx by (rewrite Hsize; lia).
  destruct (bool_decide (i ∈ vals)); [congruence |].
  rewrite lookup_replicate in Hlx. destruct Hlx as [-> _]. reflexivity.
Qed.

Lemma make_notches_flags_witness :
  exists ret,
    make_notches 26 [25; 3; 25] = Ok ret
    /\ vsize ret = 26
    /\ (forall i, 0 <= i < 26 ->
          vget ret i = Ok (if bool_decide (i ∈ [25; 3; 25]) then 1 else 0)).
Proof. apply (make_notches_flags 26 [25; 3; 25]); [lia | compute_done]. Defined.

(** X2.  A listed value that is not below [len] makes [make_notches] write
    outside the vector: the first such value is the index of the faulting
    store, and the values after it are never looked at. *)
Theorem make_notches_faults (len : Z) (pre : list Z) (bad : Z) (post : list Z) :
  0 <= len -> Forall (fun v => 0 <= v < len) pre -> ~ 0 <= bad < len ->
  make_notches len (pre ++ bad :: post) = Undefined (OutOfBounds len bad).
Proof.
  intros Hlen Hpre Hbad. unfold make_notches.
  assert (Hsize : vsize (replicate (Z.to_nat len) 0) = len).
  { unfold vsize. rewrite length_replicate. lia. }
  revert Hpre Hsize. generalize (replicate (Z.to_nat len) 0).
  induction pre as [| v pre IH]; intros ret Hpre Hsize; simpl.
  - rewrite vset_out by now rewrite Hsize. now rewrite Hsize.
  - apply Forall_cons in Hpre as [Hv Hpre].
    rewrite vset_in by now rewrite Hsize. rewrite bind_Ok.
    apply IH; [exact Hpre |]. unfold vsize in *. now rewrite length_insert.
Qed.

Lemma make_notches_faults_witness :
  make_notches 26 ([25] ++ 26 :: [0]) = Undefined (OutOfBounds 26 26).
Proof. apply (make_notches_faults 26 [25] 26 [0]); [lia | compute_done | lia]. Defined.

(** ** The constructors of Rotor *)

(** X3.  The default constructor passes its assertion and builds the
    rotor of the identity wiring: the very rotor the four-argument
    constructor builds from [ALPHA] with the single notch at 'Z'.  Set to
    any position [p] it connects any input [x], in both directions, to
    [((x + p) mod 2^64) mod 26], the sum being taken in [size_type]. *)
Theorem Rotor_default_identity (p x ring : Z) :
  exists r notches,
    Rotor_default = Some (Ok r)
    /\ make_notches 26 [notch_Z] = Ok notches
    /\ Rotor_ctor ALPHA notches 0 ring = Ok r
    /\ connect_fwd (at_pos r p) x = Ok (usize (x + p) mod 26)
    /\ connect_bck (at_pos r p) x = Ok (usize (x + p) mod 26).
Proof.
  destruct Rotor_default as [[r |] |] eqn:Hr; try (vm_compute in Hr; discriminate).
  destruct (make_notches 26 [notch_Z]) as [notches |] eqn:Hn;
    [| vm_compute in Hn; discriminate].
  exists r, notches. do 2 (split; [reflexivity |]).
  assert (Hr' : r = {| shuffle_fwd_ := seqZ 0 26; shuffle_bck_ := seqZ 0 26;
                       notches_ := notches; len_ := 26; pos_ := 0 |}).
  { vm_compute in Hr, Hn. injection Hr as <-. injection Hn as <-. reflexivity. }
  split.
  { rewrite Hr'. vm_compute in Hn. injection Hn as <-. vm_compute. reflexivity. }
  assert (Hidx : 0 <= usize (x + p) mod 26 < 26) by (apply Z.mod_pos_bound; lia).
  assert (Hget : vget (seqZ 0 26) (usize (x + p) mod 26)
                 = Ok (usize (x + p) mod 26)).
  { destruct (vget_in (seqZ 0 26) (usize (x + p) mod 26)) as (y & Hy & Hly).
    { exact Hidx. }
    rewrite Hy. f_equal.
    apply lookup_seqZ in Hly. lia. }
  rewrite Hr'. unfold connect_fwd, connect_bck, rem_len, at_pos.
  cbn [shuffle_fwd_ shuffle_bck_ len_ pos_]. change (26 =? 0) with false.
  cbv iota. rewrite !bind_Ok. auto.
Qed.

Lemma invert_loop_faults (fwd : Shuffle) :
  forall (bck : Shuffle) (i : Z),
    ~ Forall (fun e => 0 <= e < vsize bck) fwd ->
    exists e, e ∈ fwd /\ ~ 0 <= e < vsize bck
              /\ invert_loop fwd bck i = Undefined (OutOfBounds (vsize bck) e).
Proof.
  induction fwd as [| e fwd IH]; intros bck i Hnot.
  - contradiction Hnot. constructor.
  - simpl. destruct (decide (0 <= e < vsize bck)) as [He | He].
    + rewrite vset_in by exact He. rewrite bind_Ok.
      assert (Hsz : vsize (<[Z.to_nat e := i]> bck) = vsize bck).
      { unfold vsize. now rewrite length_insert. }
      destruct (IH (<[Z.to_nat e := i]> bck) (u32 (i + 1))) as (e' & Hin & Hout & Hrun).
      * rewrite Hsz. intros Hall. apply Hnot. now constructor.
      * exists e'. rewrite Hsz in Hout, Hrun. split; [now right |]. auto.
    + exists e. split; [now left |]. split; [exact He |].
      now rewrite vset_out.
Qed.

(** X4.  A wiring with a character outside the first [n] letters from 'A',
    [n] being its length, makes the constructor store outside
    [shuffle_bck_]: the result is undefined, with the first offending entry
    as the index of the store, and nothing is reported.  (Strings shorter
    than 2^31 characters.) *)
Theorem Rotor_ctor_faults (wiring : string) (notches : Shuffle) (p ring : Z) :
  vsize (chars wiring) < 2 ^ 31 ->
  ~ Forall (fun ch => 65 <= ch < 65 + vsize (chars wiring)) (chars wiring) ->
  exists e,
    e ∈ fwd_of wiring /\ vsize (chars wiring) <= e
    /\ Rotor_ctor wiring notches p ring =
         Undefined (OutOfBounds (vsize (chars wiring)) e).
Proof.
  intros Hlen Hbad.
  assert (Hsz : vsize (replicate (length (chars wiring)) 0) = vsize (chars wiring)).
  { unfold vsize. now rewrite length_replicate. }
  destruct (invert_loop_faults (fwd_of wiring)
              (replicate (length (chars wiring)) 0) 0) as (e & Hin & Hout & Hrun).
  - rewrite Hsz. intros Hall. apply Hbad.
    unfold fwd_of in Hall. rewrite <- list_fmap_compose in Hall.
    apply Forall_fmap in Hall. pose proof (chars_range wiring) as Hr.
    rewrite Forall_forall in *. intros ch Hch.
    specialize (Hall ch Hch). specialize (Hr ch Hch). simpl in Hall, Hr.
    unfold a_, u32 in Hall.
    change (2 ^ 32) with 4294967296 in Hall.
    change (2 ^ 31) with 2147483648 in Hlen.
    clear -Hall Hr Hlen. Z.div_mod_to_equations. lia.
  - rewrite Hsz in Hout, Hrun. exists e. split; [exact Hin |].
    split.
    + assert (0 <= e); [| lia].
      unfold fwd_of in Hin. apply list_elem_of_fmap in Hin as (y & -> & _).
      apply u32_range.
    + now rewrite Rotor_ctor_unfold, Hrun, bind_Undefined.
Qed.

Lemma Rotor_ctor_faults_witness :
  exists e,
    e ∈ fwd_of "ABD" /\ vsize (chars "ABD") <= e
    /\ Rotor_ctor "ABD" [] 0 0 = Undefined (OutOfBounds (vsize (chars "ABD")) e).
Proof.
  apply (Rotor_ctor_faults "ABD" [] 0 0).
  - vm_compute. reflexivity.
  - compute_done.
Defined.

(** The inverting loop without the assumption that the entries differ:
    the last occurrence of an entry decides what the backward table holds
    for it. *)
Lemma invert_loop_last (fwd : Shuffle) :
  forall (bck : Shuffle) (i : Z),
    Forall (fun e => 0 <= e < vsize bck) fwd ->
    0 <= i -> i + Z.of_nat (length fwd) < 2 ^ 32 ->
    exists bck',
      invert_loop fwd bck i = Ok bck'
      /\ length bck' = length bck
      /\ (forall (k : nat) (e : Z), fwd !! k = Some e ->
            (forall k' : nat, (k < k')%nat -> fwd !! k' <> Some e) ->
            bck' !! Z.to_nat e = Some (i + Z.of_nat k))
      /\ (forall j : nat, (forall e, e ∈ fwd -> Z.to_nat e <> j) ->
            bck' !! j = bck !! j).
Proof.
  induction fwd as [| e fwd IH]; intros bck i Hrng Hi Hlen; simpl.
  - exists bck. do 2 (split; [reflexivity |]). split; [| reflexivity].
    intros k e Hk. destruct k; discriminate.
  - apply Forall_cons in Hrng as [He Hrng].
    rewrite vset_in by exact He. rewrite bind_Ok.
    simpl in Hlen.
    assert (Hi' : u32 (i + 1) = i + 1) by (apply u32_small; lia).
    destruct (IH (<[Z.to_nat e := i]> bck) (u32 (i + 1)))
      as (bck' & Hrun & Hlen' & Hinv & Hframe).
    + eapply Forall_impl; [exact Hrng |].
      intros x Hx. unfold vsize in *. now rewrite length_insert.
    + rewrite Hi'. lia.
    + rewrite Hi'. lia.
    + exists bck'. split; [exact Hrun |].
      split; [now rewrite Hlen', length_insert |].
      split.
      * intros [| k] e' Hk Hlast; simpl in Hk.
        -- injection Hk as <-.
           rewrite Hframe.
           ++ rewrite list_lookup_insert_eq; [f_equal; lia |].
              unfold vsize in He. lia.
           ++ intros e0 Hin Heq.
              rewrite Forall_forall in Hrng. specialize (Hrng e0 Hin).
              assert (e0 = e) by lia. subst e0.
              apply list_elem_of_lookup_1 in Hin as (k' & Hk').
              apply (Hlast (S k')); [lia | exact Hk'].
        -- rewrite (Hinv k e' Hk).
           ++ rewrite Hi'. f_equal. lia.
           ++ intros k' Hlt. apply (Hlast (S k')). lia.
      * intros j Hj. rewrite Hframe.
        -- apply list_lookup_insert_ne. apply Hj. now left.
        -- intros e0 Hin. apply Hj. now right.
Qed.

(** X5.  On a wiring with repeated letters the constructor keeps, for each
    letter that occurs, the index of its last occurrence in the backward
    table, and leaves 0 at every letter that does not occur: the backward
    table then sends that letter to index 0 as if it were wired there. *)
Theorem Rotor_ctor_last_occurrence (wiring : string) (notches : Shuffle) (p ring : Z) :
  Forall (fun ch => 65 <= ch < 65 + vsize (chars wiring)) (chars wiring) ->
  vsize (chars wiring) < 2 ^ 32 ->
  exists r,
    Rotor_ctor wiring notches p ring = Ok r
    /\ (forall (k : nat) (e : Z), shuffle_fwd_ r !! k = Some e ->
          (forall k' : nat, (k < k')%nat -> shuffle_fwd_ r !! k' <> Some e) ->
          vget (shuffle_bck_ r) e = Ok (Z.of_nat k))
    /\ (forall j, 0 <= j < vsize (chars wiring) -> j ∉ shuffle_fwd_ r ->
          vget (shuffle_bck_ r) j = Ok 0).
Proof.
  intros H Hlen.
  assert (Hfwd : fwd_of wiring = (fun ch => ch - 65) <$> chars wiring).
  { apply fwd_of_letters. eapply Forall_impl; [exact H |]. simpl. lia. }
  assert (Hrng : Forall (fun e => 0 <= e < vsize (chars wiring)) (fwd_of wiring)).
  { rewrite Hfwd. apply Forall_fmap. eapply Forall_impl; [exact H |].
    intros ch Hch. cbv beta in Hch |- *. unfold compose. lia. }
  destruct (invert_loop_last (fwd_of wiring)
              (replicate (length (chars wiring)) 0) 0)
    as (bck & Hrun & Hblen & Hlast & Hframe).
  - unfold vsize at 1. now rewrite length_replicate.
  - lia.
  - rewrite fwd_of_length. unfold vsize in Hlen. lia.
  - rewrite length_replicate in Hblen.
    eexists. split; [rewrite Rotor_ctor_unfold, Hrun, bind_Ok; reflexivity |].
    cbn [shuffle_fwd_ shuffle_bck_]. split.
    + intros k e Hk Hno.
      rewrite Forall_lookup in Hrng. pose proof (Hrng _ _ Hk) as He.
      destruct (vget_in bck e) as (x & Hx & Hlx); [unfold vsize in *; lia |].
      rewrite Hx. f_equal. rewrite (Hlast k e Hk Hno) in Hlx.
      injection Hlx as <-. lia.
    + intros j Hj Hnin.
      destruct (vget_in bck j) as (x & Hx & Hlx); [unfold vsize in *; lia |].
      rewrite Hx. f_equal. rewrite Hframe in Hlx.
      * apply lookup_replicate in Hlx as [-> _]. reflexivity.
      * intros e Hin Heq. rewrite Forall_forall in Hrng.
        specialize (Hrng e Hin). assert (e = j) by lia. subst e. contradiction.
Qed.

Lemma Rotor_ctor_last_occurrence_witness :
  exists r,
    Rotor_ctor "ABA" [] 0 0 = Ok r
    /\ (forall (k : nat) (e : Z), shuffle_fwd_ r !! k = Some e ->
          (forall k' : nat, (k < k')%nat -> shuffle_fwd_ r !! k' <> Some e) ->
          vget (shuffle_bck_ r) e = Ok (Z.of_nat k))
    /\ (forall j, 0 <= j < vsize (chars "ABA") -> j ∉ shuffle_fwd_ r ->
          vget (shuffle_bck_ r) j = Ok 0).
Proof.
  apply (Rotor_ctor_last_occurrence "ABA" [] 0 0).
  - compute_done.
  - vm_compute. reflexivity.
Defined.

(** X6.  The empty wiring is accepted as well; the rotor it yields has
    length 0, and every use of it, stepping or either connection, takes a
    remainder by zero. *)
Theorem empty_wiring_rotor (notches : Shuffle) (p ring x t : Z) :
  exists r,
    Rotor_ctor "" notches p ring = Ok r
    /\ len_ r = 0
    /\ rotate r t = Undefined RemainderByZero
    /\ connect_fwd r x = Undefined RemainderByZero
    /\ connect_bck r x = Undefined RemainderByZero.
Proof. eexists. repeat split. Qed.

(** ** Rotor::rotate, connect_fwd and connect_bck *)

(** X7.  On a rotor of positive length whose notch vector covers that
    length, [rotate] never faults, whatever the stored position and the
    turnover are: it leaves the tables alone, brings the position below the
    length, and returns the notch flag stored at the new position. *)
Theorem rotate_in_range (r : Rotor) (t : Z) :
  0 < len_ r -> len_ r <= vsize (notches_ r) ->
  exists n p',
    rotate r t = Ok (n, at_pos r p')
    /\ 0 <= p' < len_ r
    /\ p' = usize (pos_ r - t) mod len_ r
    /\ vget (notches_ r) p' = Ok n.
Proof.
  intros Hlen Hnotch. unfold rotate, rem_len.
  destruct (len_ r =? 0) eqn:H0; [apply Z.eqb_eq in H0; lia |].
  rewrite bind_Ok. cbn [notches_ pos_].
  pose proof (Z.mod_pos_bound (usize (pos_ r - t)) (len_ r) Hlen) as Hp.
  destruct (vget_in (notches_ r) (usize (pos_ r - t) mod len_ r)) as (n & Hn & _);
    [lia |].
  exists n, (usize (pos_ r - t) mod len_ r).
  rewrite Hn, bind_Ok. auto.
Qed.

Lemma rotate_in_range_witness :
  exists n p',
    rotate (mkRotor [1; 0] [1; 0] [0; 1; 0] 2 77) 5 =
      Ok (n, at_pos (mkRotor [1; 0] [1; 0] [0; 1; 0] 2 77) p')
    /\ 0 <= p' < len_ (mkRotor [1; 0] [1; 0] [0; 1; 0] 2 77)
    /\ p' = usize (pos_ (mkRotor [1; 0] [1; 0] [0; 1; 0] 2 77) - 5)
              mod len_ (mkRotor [1; 0] [1; 0] [0; 1; 0] 2 77)
    /\ vget (notches_ (mkRotor [1; 0] [1; 0] [0; 1; 0] 2 77)) p' = Ok n.
Proof.
  apply (rotate_in_range (mkRotor [1; 0] [1; 0] [0; 1; 0] 2 77) 5);
    vm_compute; [reflexivity | discriminate].
Defined.

(** X8.  A rotor that receives turnover 0, its position (a [size_type]
    value) being below its length and inside its notch vector, stays
    exactly as it is and reports the notch flag of the position it is
    at. *)
Theorem rotate_without_turnover (r : Rotor) :
  0 <= pos_ r < len_ r -> pos_ r < vsize (notches_ r) -> pos_ r < 2 ^ 64 ->
  exists n, rotate r 0 = Ok (n, r) /\ vget (notches_ r) (pos_ r) = Ok n.
Proof.
  intros Hpos Hnotch Hbig. unfold rotate, rem_len.
  destruct (len_ r =? 0) eqn:H0; [apply Z.eqb_eq in H0; lia |].
  rewrite bind_Ok. cbn [notches_ pos_].
  rewrite Z.sub_0_r, usize_small by lia. rewrite Z.mod_small by lia.
  destruct (vget_in (notches_ r) (pos_ r)) as (n & Hn & _); [lia |].
  exists n. rewrite Hn, bind_Ok. split; [| reflexivity]. now destruct r.
Qed.

Lemma rotate_without_turnover_witness :
  exists n,
    rotate (mkRotor [1; 0; 2] [1; 0; 2] [0; 1] 3 1) 0
      = Ok (n, mkRotor [1; 0; 2] [1; 0; 2] [0; 1] 3 1)
    /\ vget (notches_ (mkRotor [1; 0; 2] [1; 0; 2] [0; 1] 3 1))
             (pos_ (mkRotor [1; 0; 2] [1; 0; 2] [0; 1] 3 1)) = Ok n.
Proof.
  apply (rotate_without_turnover (mkRotor [1; 0; 2] [1; 0; 2] [0; 1] 3 1));
    vm_compute; repeat split; discriminate.
Defined.

(** X9.  At any position [p] a rotor built from a permutation wiring can
    be run backwards correctly: [connect_fwd] yields an index [y], and the
    backward table at [y], with the position subtracted modulo 26, is the
    input again.  ([connect_bck] adds the position instead.) *)
Theorem connect_fwd_inverse (wiring : string) (notches : Shuffle) (p ring x : Z) :
  chars wiring ≡ₚ chars ALPHA ->
  0 <= p < 2 ^ 63 -> index x ->
  exists r y b,
    Rotor_ctor wiring notches p ring = Ok r
    /\ connect_fwd r x = Ok y /\ index y
    /\ vget (shuffle_bck_ r) y = Ok b
    /\ (b - p) mod 26 = x.
Proof.
  intros Hperm Hp Hx.
  destruct (Rotor_ctor_perm wiring notches p ring Hperm)
    as (bck & Hctor & Hf & Hb & Hrng & Hinv & _).
  unfold index in Hx.
  pose proof (Z.mod_pos_bound (x + p) 26 ltac:(lia)) as Hidx.
  destruct (index_lookup _ _ Hf Hidx) as (y & Hly & Hy).
  rewrite Forall_lookup in Hrng. pose proof (Hrng _ _ Hly) as Hyi.
  destruct (index_lookup _ _ Hb Hyi) as (b & Hlb & Hbget).
  eexists _, y, b. split; [exact Hctor |].
  unfold connect_fwd, rem_len. cbn [shuffle_fwd_ shuffle_bck_ len_ pos_].
  change (26 =? 0) with false. cbv iota. rewrite bind_Ok.
  rewrite usize_small by lia.
  do 3 (split; [assumption |]).
  rewrite (Hinv _ _ Hly) in Hlb. injection Hlb as <-.
  rewrite Z2Nat.id by lia. clear -Hx Hp.
  Z.div_mod_to_equations. lia.
Qed.

Lemma connect_fwd_inverse_witness :
  exists r y b,
    Rotor_ctor rotors.i [] 14 0 = Ok r
    /\ connect_fwd r 0 = Ok y /\ index y
    /\ vget (shuffle_bck_ r) y = Ok b
    /\ (b - 14) mod 26 = 0.
Proof.
  apply (connect_fwd_inverse rotors.i [] 14 0 0);
    [compute_done | lia | unfold index; lia].
Defined.

(** ** The machine: plugboard, entry wheel and stepping *)

(** X10.  [std::iota] overwrites a vector with consecutive values from the
    start value on, whatever it held, as long as the values stay within
    [uint32_t]. *)
Theorem iota_consecutive (v : Shuffle) (start : Z) :
  0 <= start -> start + vsize v <= 2 ^ 32 ->
  iota v start = seqZ start (vsize v).
Proof.
  revert start. induction v as [| a v IH]; intros start H0 Hlen.
  - reflexivity.
  - assert (Hv : vsize (a :: v) = vsize v + 1).
    { unfold vsize. cbn [length]. lia. }
    assert (Hpos : 0 <= vsize v) by (unfold vsize; lia).
    rewrite Hv in Hlen |- *. cbn [iota].
    rewrite seqZ_cons by lia. f_equal.
    replace (Z.pred (vsize v + 1)) with (vsize v) by lia.
    destruct v as [| b v'].
    + reflexivity.
    + assert (Hb : 1 <= vsize (b :: v')) by (unfold vsize; cbn [length]; lia).
      assert (Hs : u32 (start + 1) = start + 1) by (apply u32_small; lia).
      rewrite Hs, IH by lia. reflexivity.
Qed.

Lemma iota_consecutive_witness : iota [7; 7; 7] 4 = seqZ 4 (vsize [7; 7; 7]).
Proof. apply (iota_consecutive [7; 7; 7] 4); vm_compute; discriminate. Defined.

(** X11.  In every reachable state the plugboard and the entry wheel are
    the identity on the alphabet, the entry wheel in both directions: what
    [cipher_one] computes is decided by the rotor stack and the reflector
    alone. *)
Theorem plugboard_and_entry_wheel_identity (m : EnigmaMachine) (x : Z) :
  reachable m -> index x ->
  vget (plugboard_ m) x = Ok x
  /\ connect_fwd (etw_ m) x = Ok x
  /\ connect_bck (etw_ m) x = Ok x.
Proof.
  intros Hm Hx. destruct (reachable_fixed m Hm) as (-> & -> & _).
  pose (chk := fun x =>
          match vget (plugboard_ the_machine) x,
                connect_fwd (etw_ the_machine) x,
                connect_bck (etw_ the_machine) x with
          | Ok a, Ok b, Ok c => (a =? x) && (b =? x) && (c =? x)
          | _, _, _ => false
          end).
  assert (H : chk x = true).
  { revert x Hx. apply forallb_index. vm_compute. reflexivity. }
  unfold chk in H.
  destruct (vget (plugboard_ the_machine) x) as [a |]; [| discriminate].
  destruct (connect_fwd (etw_ the_machine) x) as [b |]; [| discriminate].
  destruct (connect_bck (etw_ the_machine) x) as [c |]; [| discriminate].
  apply andb_true_iff in H as [H Hc]. apply andb_true_iff in H as [Ha Hb].
  apply Z.eqb_eq in Ha, Hb, Hc. now subst.
Qed.

Lemma plugboard_and_entry_wheel_identity_witness :
  vget (plugboard_ the_machine) 7 = Ok 7
  /\ connect_fwd (etw_ the_machine) 7 = Ok 7
  /\ connect_bck (etw_ the_machine) 7 = Ok 7.
Proof.
  apply (plugboard_and_entry_wheel_identity the_machine 7).
  - apply reach_ctor. vm_compute. reflexivity.
  - unfold index. lia.
Defined.

Lemma rotate_Ok_inv (r r' : Rotor) (t n : Z) :
  rotate r t = Ok (n, r') -> r' = at_pos r (pos_ r').
Proof.
  unfold rotate. intros H.
  apply bind_Ok_inv in H as (pos & _ & H).
  apply bind_Ok_inv in H as (n' & _ & H).
  injection H as _ <-. reflexivity.
Qed.

Lemma keydown_loop_frame (rs : list Rotor) :
  forall (t : Z) (rs' : list Rotor),
    keydown_loop rs t = Ok rs' ->
    length rs' = length rs
    /\ (forall (k : nat) (r' : Rotor), rs' !! k = Some r' ->
          exists r, rs !! k = Some r /\ r' = at_pos r (pos_ r')).
Proof.
  induction rs as [| r rs IH]; intros t rs' H; simpl in H.
  - injection H as <-. split; [reflexivity |]. intros k r' Hk. destruct k; discriminate.
  - apply bind_Ok_inv in H as ([n r1] & Hrot & H).
    apply bind_Ok_inv in H as (rs1 & Hloop & H). injection H as <-.
    destruct (IH _ _ Hloop) as (Hlen & Hrest).
    split; [simpl; now rewrite Hlen |].
    intros [| k] r' Hk; simpl in Hk.
    + injection Hk as <-. exists r. split; [reflexivity |].
      eapply rotate_Ok_inv, Hrot.
    + apply Hrest, Hk.
Qed.

(** X12.  Whatever machine it is called on, [keydown], when it returns,
    has changed rotor positions and nothing else: plugboard, entry wheel
    and reflector are the same, the stack has the same number of rotors, and
    each rotor keeps its tables, its notches and its length. *)
Theorem keydown_changes_positions_only (m m' : EnigmaMachine) :
  keydown m = Ok m' ->
  plugboard_ m' = plugboard_ m /\ etw_ m' = etw_ m /\ ukw_ m' = ukw_ m
  /\ length (rotors_ m') = length (rotors_ m)
  /\ (forall (k : nat) (r' : Rotor), rotors_ m' !! k = Some r' ->
        exists r, rotors_ m !! k = Some r /\ r' = at_pos r (pos_ r')).
Proof.
  unfold keydown. intros H. apply bind_Ok_inv in H as (rs & Hloop & H).
  injection H as <-. cbn [plugboard_ etw_ ukw_ rotors_].
  do 3 (split; [reflexivity |]). eapply keydown_loop_frame, Hloop.
Qed.

Lemma keydown_changes_positions_only_witness :
  plugboard_ (first_at the_machine 15) = plugboard_ the_machine
  /\ etw_ (first_at the_machine 15) = etw_ the_machine
  /\ ukw_ (first_at the_machine 15) = ukw_ the_machine
  /\ length (rotors_ (first_at the_machine 15)) = length (rotors_ the_machine)
  /\ (forall (k : nat) (r' : Rotor),
        rotors_ (first_at the_machine 15) !! k = Some r' ->
        exists r, rotors_ the_machine !! k = Some r /\ r' = at_pos r (pos_ r')).
Proof.
  apply (keydown_changes_positions_only the_machine (first_at the_machine 15)).
  vm_compute. reflexivity.
Defined.

Lemma keydown_first_at (p : Z) :
  0 <= p <= 15 ->
  keydown (first_at the_machine p) = Ok (first_at the_machine (next_pos p)).
Proof.
  intros Hp.
  assert (Hstep : first_only p = true).
  { assert (Hall : forallb first_only (seqZ 0 16) = true)
      by (vm_compute; reflexivity).
    rewrite forallb_forall in Hall. apply Hall, list_elem_of_In.
    apply elem_of_seqZ. lia. }
  unfold first_only in Hstep.
  destruct (keydown (first_at the_machine p)) as [m' |]; [| discriminate].
  apply andb_true_iff in Hstep as [_ Hm'].
  apply bool_decide_eq_true_1 in Hm'. now subst.
Qed.

Lemma first_pos_after_range (n : nat) : 0 <= first_pos_after n <= 15.
Proof.
  unfold first_pos_after.
  pose proof (Z.mod_pos_bound (16 - Z.of_nat n mod 16) 16). lia.
Qed.

Lemma first_pos_after_succ (n : nat) :
  first_pos_after (S n) = next_pos (first_pos_after n).
Proof.
  unfold first_pos_after, next_pos. rewrite Nat2Z.inj_succ.
  destruct ((16 - Z.of_nat n mod 16) mod 16 =? 0) eqn:H0.
  - apply Z.eqb_eq in H0. Z.div_mod_to_equations. lia.
  - apply Z.eqb_neq in H0. Z.div_mod_to_equations. lia.
Qed.

Lemma steps_first_at (n : nat) :
  steps n = Ok (first_at the_machine (first_pos_after n)).
Proof.
  induction n as [| n IH].
  - vm_compute. reflexivity.
  - cbn [steps]. rewrite IH, bind_Ok, first_pos_after_succ.
    apply keydown_first_at, first_pos_after_range.
Qed.

Lemma positions_first_at (p : Z) : positions (first_at the_machine p) = [p; 0; 0].
Proof. reflexivity. Qed.

(** X13.  After [n] calls of [keydown] the constructed machine has its
    first rotor at position [(16 - n mod 16) mod 16] and its second and
    third rotor at 0: the first rotor runs through 0, 15, 14, ..., 1 and
    never reaches its notch at 25, so the other rotors never step. *)
Theorem positions_after_steps (n : nat) :
  exists m,
    steps n = Ok m
    /\ positions m = [(16 - Z.of_nat n mod 16) mod 16; 0; 0].
Proof.
  exists (first_at the_machine (first_pos_after n)).
  split; [apply steps_first_at | apply positions_first_at].
Qed.

(** X14.  The whole machine state has period 16 under [keydown]: sixteen
    further keystrokes bring back the very same machine, so characters 16
    places apart in the input are enciphered by the same substitution. *)
Theorem steps_period_16 (n : nat) : steps (n + 16) = steps n.
Proof.
  rewrite !steps_first_at. do 2 f_equal.
  unfold first_pos_after. rewrite Nat2Z.inj_add.
  change (Z.of_nat 16) with (1 * 16). now rewrite Z_mod_plus_full.
Qed.

(** ** cipher_one *)

Lemma reachable_first_at (m : EnigmaMachine) :
  reachable m -> exists p, 0 <= p <= 15 /\ m = first_at the_machine p.
Proof.
  intros Hm. destruct (reachable_steps m Hm) as (n & Hn).
  rewrite steps_first_at in Hn. injection Hn as <-.
  exists (first_pos_after n). split; [apply first_pos_after_range | reflexivity].
Qed.

Lemma valid_char_seqZ (ch : Z) : valid_char ch -> In ch (seqZ 65 26).
Proof.
  intros H. apply list_elem_of_In, elem_of_seqZ. unfold valid_char in H. lia.
Qed.

(** X15.  In every reachable state [cipher_one] is one-to-one on the
    alphabet: two characters with the same cipher character are equal, so
    a ciphertext character determines its plaintext character once the
    state is known. *)
Theorem cipher_one_injective (m : EnigmaMachine) (c1 c2 o : Z) :
  reachable m -> valid_char c1 -> valid_char c2 ->
  cipher_char m c1 = Ok o -> cipher_char m c2 = Ok o ->
  c1 = c2.
Proof.
  intros Hm H1 H2 Ho1 Ho2.
  destruct (reachable_first_at m Hm) as (p & Hp & ->).
  assert (Hall : forallb injective_at (seqZ 0 16) = true)
    by (vm_compute; reflexivity).
  rewrite forallb_forall in Hall.
  assert (Hinj : injective_at p = true).
  { apply Hall, list_elem_of_In, elem_of_seqZ. lia. }
  unfold injective_at in Hinj. rewrite forallb_forall in Hinj.
  specialize (Hinj c1 (valid_char_seqZ c1 H1)).
  rewrite forallb_forall in Hinj.
  specialize (Hinj c2 (valid_char_seqZ c2 H2)).
  rewrite Ho1, Ho2, Z.eqb_refl in Hinj. simpl in Hinj.
  now apply Z.eqb_eq.
Qed.

Lemma cipher_one_injective_witness : 72 = 72.
Proof.
  apply (cipher_one_injective (first_at the_machine 14) 72 72 74).
  - apply (reach_keydown (first_at the_machine 15)).
    + apply (reach_keydown the_machine).
      * apply reach_ctor. vm_compute. reflexivity.
      * vm_compute. reflexivity.
    + vm_compute. reflexivity.
  - unfold valid_char. lia.
  - unfold valid_char. lia.
  - vm_compute. reflexivity.
  - vm_compute. reflexivity.
Defined.

Lemma forward_pass_length (rs : list Rotor) :
  forall x out y out',
    forward_pass rs x out = Ok (y, out') ->
    length out' = (length out + 2 * length rs)%nat.
Proof.
  induction rs as [| r rs IH]; intros x out y out' H; simpl in H.
  - injection H as _ <-. simpl. lia.
  - apply bind_Ok_inv in H as (x' & _ & H). apply IH in H.
    rewrite H, length_app. simpl. lia.
Qed.

Lemma backward_pass_length (rs : list Rotor) :
  forall x out y out',
    backward_pass rs x out = Ok (y, out') ->
    length out' = (length out + 2 * length rs)%nat.
Proof.
  induction rs as [| r rs IH]; intros x out y out' H; simpl in H.
  - injection H as _ <-. simpl. lia.
  - apply bind_Ok_inv in H as (x' & _ & H). apply IH in H.
    rewrite H, length_app. simpl. lia.
Qed.

(** X16.  Whenever [cipher_one] returns, on any machine, it has written
    exactly four characters per rotor of the stack plus four to
    [std::cout]: a letter and a space per rotor on the way in, a newline,
    the reflected letter and a newline, a letter and a space per rotor on
    the way back, and a newline. *)
Theorem cipher_one_diagnostics_length (m : EnigmaMachine) (ch o : Z) (diag : list Z) :
  cipher_one m ch = Ok (o, diag) ->
  length diag = (4 * length (rotors_ m) + 4)%nat.
Proof.
  unfold cipher_one. intros H.
  apply bind_Ok_inv in H as (x1 & _ & H).
  apply bind_Ok_inv in H as (x2 & _ & H).
  apply bind_Ok_inv in H as ([x3 out3] & Hf & H).
  apply bind_Ok_inv in H as (x4 & _ & H).
  apply bind_Ok_inv in H as ([x5 out5] & Hb & H).
  apply bind_Ok_inv in H as (x6 & _ & H).
  apply bind_Ok_inv in H as (x7 & _ & H).
  injection H as _ <-.
  apply forward_pass_length in Hf. apply backward_pass_length in Hb.
  rewrite length_app, Hb, !length_app, Hf, length_reverse. simpl. lia.
Qed.

Lemma cipher_one_diagnostics_length_witness :
  length [89; 32; 67; 32; 77; 32; 10; 79; 10; 77; 32; 67; 32; 72; 32; 10]
  = (4 * length (rotors_ (first_at the_machine 14)) + 4)%nat.
Proof.
  apply (cipher_one_diagnostics_length (first_at the_machine 14) 65 72).
  vm_compute. reflexivity.
Defined.

(** ** Reciprocity with all rotors at position 0 *)

Lemma index_b_true (x : Z) : index_b x = true <-> index x.
Proof. unfold index_b, index. rewrite andb_true_iff, Z.leb_le, Z.ltb_lt. tauto. Qed.

Lemma undoes_spec (f g : Z -> result Z) :
  undoes f g = true ->
  forall x, index x -> exists y, g x = Ok y /\ index y /\ f y = Ok x.
Proof.
  intros H x Hx. unfold undoes in H.
  pose proof (forallb_index _ H x Hx) as Hc. cbv beta in Hc.
  destruct (g x) as [y |]; [| discriminate].
  apply andb_true_iff in Hc as [Hy Hc]. apply index_b_true in Hy.
  destruct (f y) as [x' |] eqn:Hf; [| discriminate].
  apply Z.eqb_eq in Hc. subst x'. exists y. auto.
Qed.

Lemma connect_at_zero (r : Rotor) (x : Z) :
  len_ r = 26 -> pos_ r = 0 -> index x ->
  connect_fwd r x = vget (shuffle_fwd_ r) x
  /\ connect_bck r x = vget (shuffle_bck_ r) x.
Proof.
  intros Hl Hp Hx. unfold connect_fwd, connect_bck, rem_len, index in *.
  rewrite Hl, Hp. change (26 =? 0) with false. cbv iota.
  rewrite bind_Ok, Z.add_0_r, usize_small by lia.
  rewrite Z.mod_small by lia. auto.
Qed.

Lemma rotor_zero_ok_inv (r : Rotor) :
  rotor_zero_ok r = true ->
  len_ r = 26 /\ pos_ r = 0
  /\ undoes (vget (shuffle_bck_ r)) (vget (shuffle_fwd_ r)) = true
  /\ undoes (vget (shuffle_fwd_ r)) (vget (shuffle_bck_ r)) = true.
Proof.
  unfold rotor_zero_ok. rewrite !andb_true_iff, !Z.eqb_eq. tauto.
Qed.

Lemma rotor_zero_fwd (r : Rotor) (x : Z) :
  rotor_zero_ok r = true -> index x ->
  exists y, connect_fwd r x = Ok y /\ index y /\ connect_bck r y = Ok x.
Proof.
  intros Hr Hx. apply rotor_zero_ok_inv in Hr as (Hl & Hp & Hfb & _).
  destruct (undoes_spec _ _ Hfb x Hx) as (y & Hy & Hyi & Hback).
  exists y. destruct (connect_at_zero r x Hl Hp Hx) as [-> _].
  destruct (connect_at_zero r y Hl Hp Hyi) as [_ ->]. auto.
Qed.

Lemma rotor_zero_bck (r : Rotor) (y : Z) :
  rotor_zero_ok r = true -> index y ->
  exists x, connect_bck r y = Ok x /\ index x /\ connect_fwd r x = Ok y.
Proof.
  intros Hr Hy. apply rotor_zero_ok_inv in Hr as (Hl & Hp & _ & Hbf).
  destruct (undoes_spec _ _ Hbf y Hy) as (x & Hx & Hxi & Hback).
  exists x. destruct (connect_at_zero r y Hl Hp Hy) as [_ ->].
  destruct (connect_at_zero r x Hl Hp Hxi) as [-> _]. auto.
Qed.

Lemma backward_pass_app (l1 l2 : list Rotor) :
  forall x out,
    backward_pass (l1 ++ l2) x out =
      '(y, out') ← backward_pass l1 x out; backward_pass l2 y out'.
Proof.
  induction l1 as [| r l1 IH]; intros x out; simpl.
  - reflexivity.
  - destruct (connect_bck r x) as [x' |]; [| reflexivity].
    rewrite !bind_Ok. apply IH.
Qed.

(** The whole stack at position 0: the backward pass over the reversed
    stack undoes the forward pass, and the other way round. *)
Lemma stack_forward_backward (rs : list Rotor) :
  forallb rotor_zero_ok rs = true ->
  forall x, index x ->
    exists y,
      (forall out, exists out', forward_pass rs x out = Ok (y, out'))
      /\ index y
      /\ (forall out, exists out', backward_pass (reverse rs) y out = Ok (x, out')).
Proof.
  induction rs as [| r rs IH]; intros Hrs x Hx.
  - exists x. split; [intros out; eexists; reflexivity |].
    split; [assumption |]. intros out; eexists; reflexivity.
  - simpl in Hrs. apply andb_true_iff in Hrs as [Hr Hrs].
    destruct (rotor_zero_fwd r x Hr Hx) as (y1 & Hf & Hy1 & Hb).
    destruct (IH Hrs y1 Hy1) as (y & Hfwd & Hy & Hbck).
    exists y. split; [| split; [exact Hy |]].
    + intros out. simpl. rewrite Hf, bind_Ok. apply Hfwd.
    + intros out. rewrite reverse_cons, backward_pass_app.
      destruct (Hbck out) as (out1 & ->). rewrite bind_Ok. simpl.
      rewrite Hb, bind_Ok. eauto.
Qed.

Lemma stack_backward_forward (rs : list Rotor) :
  forallb rotor_zero_ok rs = true ->
  forall y, index y ->
    exists x,
      (forall out, exists out', backward_pass (reverse rs) y out = Ok (x, out'))
      /\ index x
      /\ (forall out, exists out', forward_pass rs x out = Ok (y, out')).
Proof.
  induction rs as [| r rs IH]; intros Hrs y Hy.
  - exists y. split; [intros out; eexists; reflexivity |].
    split; [assumption |]. intros out; eexists; reflexivity.
  - simpl in Hrs. apply andb_true_iff in Hrs as [Hr Hrs].
    destruct (IH Hrs y Hy) as (x1 & Hbck & Hx1 & Hfwd).
    destruct (rotor_zero_bck r x1 Hr Hx1) as (x & Hb & Hx & Hf).
    exists x. split; [| split; [exact Hx |]].
    + intros out. rewrite reverse_cons, backward_pass_app.
      destruct (Hbck out) as (out1 & ->). rewrite bind_Ok. simpl.
      rewrite Hb, bind_Ok. eauto.
    + intros out. simpl. rewrite Hf, bind_Ok. apply Hfwd.
Qed.

Lemma cipher_char_stages (m : EnigmaMachine) (ch x0 x1 x2 x3 x4 x5 x6 x7 : Z) :
  u32 (ch - 65) = x0 ->
  vget (plugboard_ m) x0 = Ok x1 ->
  connect_fwd (etw_ m) x1 = Ok x2 ->
  (forall out, exists out', forward_pass (rotors_ m) x2 out = Ok (x3, out')) ->
  connect_fwd (ukw_ m) x3 = Ok x4 ->
  (forall out, exists out',
     backward_pass (reverse (rotors_ m)) x4 out = Ok (x5, out')) ->
  connect_bck (etw_ m) x5 = Ok x6 ->
  vget (plugboard_ m) x6 = Ok x7 ->
  cipher_char m ch = Ok (to_char (u32 (x7 + 65))).
Proof.
  intros H0 H1 H2 H3 H4 H5 H6 H7. unfold cipher_char, cipher_one.
  rewrite H0, H1, bind_Ok, H2, bind_Ok.
  destruct (H3 []) as (out3 & ->). rewrite bind_Ok, H4, bind_Ok.
  destruct (H5 ((out3 ++ [NEWLINE]) ++ [chr x4; NEWLINE])) as (out5 & ->).
  now rewrite bind_Ok, H6, bind_Ok, H7, !bind_Ok.
Qed.

Lemma index_char_back (x : Z) : index x -> u32 (to_char (u32 (x + 65)) - 65) = x.
Proof.
  unfold index. intros H. rewrite (u32_small (x + 65)) by lia.
  unfold to_char. rewrite Z.mod_small by lia.
  replace (x + 65 + 128 - 128 - 65) with x by lia. apply u32_small. lia.
Qed.

(** X17.  Reciprocity where the code has it: on any machine whose rotors
    and entry wheel are 26-letter rotors at position 0 with tables inverse
    to each other, and whose reflector and plugboard each undo themselves,
    enciphering an alphabet character and enciphering the result again
    returns the original character. *)
Theorem cipher_reciprocal_at_zero (m : EnigmaMachine) (ch : Z) :
  machine_zero_ok m = true -> valid_char ch ->
  exists ch',
    cipher_char m ch = Ok ch' /\ valid_char ch' /\ cipher_char m ch' = Ok ch.
Proof.
  intros Hm Hch. unfold machine_zero_ok in Hm.
  apply andb_true_iff in Hm as [Hm Hplug].
  apply andb_true_iff in Hm as [Hm Hukw].
  apply andb_true_iff in Hm as [Hrs Hetw].
  destruct (valid_char_index ch Hch) as [H0 Hx0].
  destruct (undoes_spec _ _ Hplug _ Hx0) as (x1 & Hp1 & Hx1 & Hp1').
  destruct (rotor_zero_fwd _ _ Hetw Hx1) as (x2 & He2 & Hx2 & He2').
  destruct (stack_forward_backward _ Hrs _ Hx2) as (x3 & Hs3 & Hx3 & Hs3').
  destruct (undoes_spec _ _ Hukw _ Hx3) as (x4 & Hu4 & Hx4 & Hu4').
  destruct (stack_backward_forward _ Hrs _ Hx4) as (x5 & Hs5 & Hx5 & Hs5').
  destruct (rotor_zero_bck _ _ Hetw Hx5) as (x6 & He6 & Hx6 & He6').
  destruct (undoes_spec _ _ Hplug _ Hx6) as (x7 & Hp7 & Hx7 & Hp7').
  exists (to_char (u32 (x7 + 65))).
  split; [apply (cipher_char_stages m ch (ch - 65) x1 x2 x3 x4 x5 x6 x7);
          assumption |].
  split; [now apply index_to_char |].
  rewrite (cipher_char_stages m _ x7 x6 x5 x4 x3 x2 x1 (ch - 65)
             (index_char_back x7 Hx7) Hp7' He6' Hs5' Hu4' Hs3' He2' Hp1').
  f_equal. unfold valid_char in Hch. rewrite Z.sub_add, u32_small by lia.
  unfold to_char. rewrite Z.mod_small by lia. lia.
Qed.

Lemma cipher_reciprocal_at_zero_witness :
  exists ch',
    cipher_char the_machine 65 = Ok ch' /\ valid_char ch'
    /\ cipher_char the_machine ch' = Ok 65.
Proof.
  apply (cipher_reciprocal_at_zero the_machine 65).
  - vm_compute. reflexivity.
  - unfold valid_char. lia.
Defined.

Lemma undoes_intro (f g : Z -> result Z) :
  (forall x, index x -> exists y, g x = Ok y /\ index y /\ f y = Ok x) ->
  undoes f g = true.
Proof.
  intros H. unfold undoes. apply forallb_forall. intros x Hin.
  apply list_elem_of_In, index_seqZ in Hin.
  destruct (H x Hin) as (y & -> & Hy & ->).
  apply index_b_true in Hy. now rewrite Hy, Z.eqb_refl.
Qed.

(** Every rotor the constructor builds from a permutation wiring with
    initial position 0 meets the condition on rotors above. *)
Lemma Rotor_ctor_zero_ok (wiring : string) (notches : Shuffle) (ring : Z) (r : Rotor) :
  chars wiring ≡ₚ chars ALPHA ->
  Rotor_ctor wiring notches 0 ring = Ok r ->
  rotor_zero_ok r = true.
Proof.
  intros Hp Hr.
  destruct (Rotor_ctor_perm wiring notches 0 ring Hp)
    as (bck & Hctor & Hf & Hb & Hrng & Hinv & Hsurj).
  rewrite Hctor in Hr. injection Hr as <-.
  assert (Hfwd : forall i, index i ->
            exists y, vget (fwd_of wiring) i = Ok y /\ index y
                      /\ vget bck y = Ok i).
  { intros i Hi.
    destruct (index_lookup _ i Hf Hi) as (y & Hly & Hy).
    exists y. split; [exact Hy |].
    rewrite Forall_lookup in Hrng. pose proof (Hrng _ _ Hly) as Hyi.
    split; [exact Hyi |].
    destruct (index_lookup _ y Hb Hyi) as (i' & Hli' & Hi').
    rewrite Hi'. f_equal.
    rewrite (Hinv _ _ Hly) in Hli'. injection Hli' as <-.
    unfold index in Hi. lia. }
  unfold rotor_zero_ok. cbn [len_ pos_ shuffle_fwd_ shuffle_bck_].
  rewrite !andb_true_iff. repeat split; try reflexivity.
  - now apply undoes_intro.
  - apply undoes_intro. intros y Hy. destruct (Hsurj y Hy) as (k & Hk).
    assert (Hki : index (Z.of_nat k)).
    { apply lookup_lt_Some in Hk. unfold vsize in Hf. unfold index. lia. }
    destruct (Hfwd (Z.of_nat k) Hki) as (y' & Hy' & _ & Hback).
    apply vget_Ok_lookup in Hy' as Hl. destruct Hl as [_ Hl].
    rewrite Nat2Z.id, Hk in Hl. injection Hl as <-.
    exists (Z.of_nat k). auto.
Qed.

(** ** main *)

(** X18.  On a non-empty input of alphabet characters [main] returns after
    one pass more than there are characters.  When the characters have all
    been processed, the last pass, whose extraction fails, steps the machine
    once more and enciphers the last character a second time: the output
    ends with one cipher character more than the input has characters. *)
Theorem main_trailing_pass (input : list Z) (lastc : Z) :
  Forall valid_char (input ++ [lastc]) ->
  exists s_n m o diag,
    (s0 ← main_start (input ++ [lastc]); iterations (length input + 1) s0) = Ok s_n
    /\ cin s_n = [] /\ c s_n = Some lastc
    /\ steps (length input + 3) = Ok m
    /\ cipher_one m lastc = Ok (o, diag)
    /\ main (input ++ [lastc]) =
         Ok {| machine := m; c := Some lastc; cin := []; cin_good := false;
               cout := cout s_n ++ diag ++ [o; NEWLINE] |}.
Proof.
  intros Hvalid.
  destruct (main_start_Ok (input ++ [lastc])) as (m1 & Hm1 & Hstart).
  set (s0 := {| machine := m1; c := None; cin := input ++ [lastc];
                cin_good := true; cout := [] |}) in *.
  assert (Hlen : length (input ++ [lastc]) = (length input + 1)%nat).
  { rewrite length_app. reflexivity. }
  destruct (iterations_all (input ++ [lastc]) s0 1 Hm1 eq_refl eq_refl Hvalid)
    as (s_n & Hit & Hst & Hcin & Hgood & Hc).
  rewrite last_snoc in Hc. rewrite Hlen in Hit, Hst.
  assert (Hlast : valid_char lastc).
  { rewrite Forall_app, Forall_singleton in Hvalid. tauto. }
  destruct (loop_body_eof s_n lastc _ Hst Hcin Hc Hlast)
    as (m & o & diag & Hm & Hco & Hbody).
  exists s_n, m, o, diag.
  split; [now rewrite Hstart, bind_Ok |].
  do 2 (split; [assumption |]).
  split; [now replace (length input + 3)%nat with (S (1 + (length input + 1))) by lia |].
  split; [exact Hco |].
  destruct (main_while_prefix (length input + 1) s0 1 1 Hm1 eq_refl Hvalid)
    as (s' & Hit' & Hwhile & _).
  { cbn [cin s0]. rewrite Hlen. lia. }
  assert (s' = s_n) by congruence. subst s'.
  unfold main. rewrite Hstart, bind_Ok, Hlen.
  replace (S (length input + 1)) with ((length input + 1) + 1)%nat by lia.
  rewrite Hwhile. cbn [main_while]. now rewrite Hgood, Hbody, bind_Ok.
Qed.

Lemma main_trailing_pass_witness :
  exists s_n m o diag,
    (s0 ← main_start ([72] ++ [73]); iterations (length [72] + 1) s0) = Ok s_n
    /\ cin s_n = [] /\ c s_n = Some 73
    /\ steps (length [72] + 3) = Ok m
    /\ cipher_one m 73 = Ok (o, diag)
    /\ main ([72] ++ [73]) =
         Ok {| machine := m; c := Some 73; cin := []; cin_good := false;
               cout := cout s_n ++ diag ++ [o; NEWLINE] |}.
Proof. apply (main_trailing_pass [72] 73). compute_done. Defined.

Lemma cipher_one_out (m : EnigmaMachine) (ch : Z) :
  machine_wf m -> -128 <= ch <= 127 -> ~ valid_char ch ->
  cipher_one m ch = Undefined (OutOfBounds 26 (u32 (ch - 65))).
Proof.
  intros Hm Hch Hinv. pose proof (wf_plug_size m Hm) as Hsize.
  assert (Hidx : 26 <= u32 (ch - 65)).
  { unfold valid_char in Hinv. unfold u32.
    change (2 ^ 32) with 4294967296. Z.div_mod_to_equations. lia. }
  unfold cipher_one. rewrite vget_out by lia.
  now rewrite Hsize, bind_Undefined.
Qed.

Lemma main_while_invalid (pre : list Z) (bad : Z) (post : list Z) :
  -128 <= bad <= 127 -> isspace bad = false -> ~ valid_char bad ->
  forall (s : Main) (k fuel : nat),
    steps k = Ok (machine s) -> cin s = pre ++ bad :: post ->
    cin_good s = true -> Forall valid_char pre -> (length pre < fuel)%nat ->
    main_while fuel s = Undefined (OutOfBounds 26 (u32 (bad - 65))).
Proof.
  intros Hrange Hns Hbad.
  induction pre as [| x pre IH]; intros s k fuel Hk Hcin Hgood Hvalid Hfuel;
    (destruct fuel as [| fuel]; [simpl in Hfuel; lia |]);
    cbn [main_while]; rewrite Hgood.
  - destruct (steps_reachable k) as (mk & Hmk & Hreach).
    assert (mk = machine s) by congruence. subst mk.
    destruct (keydown_wf _ (reachable_wf _ Hreach)) as (m' & Hkd & Hwf').
    unfold loop_body. rewrite Hcin. cbn [app].
    rewrite (skipws_nonspace bad post Hns), Hkd, bind_Ok.
    cbn beta iota. rewrite bind_Ok, (cipher_one_out m' bad Hwf' Hrange Hbad).
    reflexivity.
  - apply Forall_cons in Hvalid as [Hx Hpre].
    destruct (loop_body_next s x (pre ++ bad :: post) k Hk Hcin Hx)
      as (m & o & diag & Hm & _ & Hbody).
    rewrite Hbody, bind_Ok.
    set (s1 := {| machine := m; c := Some x; cin := pre ++ bad :: post;
                  cin_good := true; cout := cout s ++ diag ++ [o; NEWLINE] |}).
    apply (IH s1 (S k)); [exact Hm | reflexivity | reflexivity | exact Hpre |].
    simpl in Hfuel. lia.
Qed.

(** X19.  A character that is neither whitespace nor one of 'A'..'Z',
    coming after a prefix of alphabet characters, makes the whole run
    undefined: the characters before it are processed, and at that
    character the plugboard is indexed out of range, whatever follows.
    (Whitespace is skipped by the extraction and never reaches
    [cipher_one].) *)
Theorem main_invalid_char (pre : list Z) (bad : Z) (post : list Z) :
  Forall valid_char pre -> -128 <= bad <= 127 ->
  isspace bad = false -> ~ valid_char bad ->
  main (pre ++ bad :: post) = Undefined (OutOfBounds 26 (u32 (bad - 65))).
Proof.
  intros Hpre Hrange Hns Hbad.
  destruct (main_start_Ok (pre ++ bad :: post)) as (m1 & Hm1 & Hstart).
  unfold main. rewrite Hstart, bind_Ok.
  apply (main_while_invalid pre bad post Hrange Hns Hbad _ 1%nat);
    try reflexivity; try assumption.
  rewrite length_app. simpl. lia.
Qed.

Lemma main_invalid_char_witness :
  main ([72; 73] ++ 104 :: [74]) = Undefined (OutOfBounds 26 (u32 (104 - 65))).
Proof.
  apply (main_invalid_char [72; 73] 104 [74]).
  - compute_done.
  - lia.
  - reflexivity.
  - unfold valid_char. lia.
Defined.

Lemma skipws_without_space (l : list Z) :
  without_space (skipws l) = without_space l.
Proof.
  unfold without_space. induction l as [| a l IH]; [reflexivity |].
  cbn [skipws]. destruct (isspace a) eqn:Ha.
  - cbn [List.filter]. now rewrite Ha.
  - reflexivity.
Qed.

Lemma skipws_cases (l : list Z) :
  skipws l = []
  \/ exists x rest, skipws l = x :: rest /\ isspace x = false
                    /\ (length rest < length l)%nat.
Proof.
  induction l as [| a l IH]; [now left |].
  cbn [skipws]. destruct (isspace a) eqn:Ha.
  - destruct IH as [-> | (x & rest & -> & Hx & Hlen)]; [now left |].
    right. exists x, rest. cbn [length]. repeat split; [assumption | lia].
  - right. exists a, l. cbn [length]. repeat split; [assumption | lia].
Qed.

Lemma skipws_agree (l1 l2 : list Z) :
  without_space l1 = without_space l2 ->
  (skipws l1 = [] /\ skipws l2 = [])
  \/ exists x r1 r2,
       skipws l1 = x :: r1 /\ skipws l2 = x :: r2
       /\ without_space r1 = without_space r2
       /\ (length r1 < length l1)%nat /\ (length r2 < length l2)%nat.
Proof.
  intros H. rewrite <- (skipws_without_space l1), <- (skipws_without_space l2) in H.
  destruct (skipws_cases l1) as [E1 | (x1 & r1 & E1 & H1 & L1)];
    destruct (skipws_cases l2) as [E2 | (x2 & r2 & E2 & H2 & L2)];
    rewrite E1, E2 in H; unfold without_space in H; cbn [List.filter] in H;
    rewrite ?H1, ?H2 in H; cbn [negb] in H; try discriminate.
  - now left.
  - injection H as -> H. right. exists x2, r1, r2. auto.
Qed.

Lemma main_while_stopped (fuel : nat) (s : Main) :
  cin_good s = false -> main_while fuel s = Ok s.
Proof. intros H. destruct fuel; cbn [main_while]; [| rewrite H]; reflexivity. Qed.

(** Two runs of the loop that differ only in the whitespace of the
    remaining stream end in the same way. *)
Lemma main_while_same_input (f1 : nat) :
  forall (f2 : nat) (m : EnigmaMachine) (c0 : option Z) (g : bool)
         (out l1 l2 : list Z),
    without_space l1 = without_space l2 -> (g = false -> l1 = l2) ->
    (length l1 < f1)%nat -> (length l2 < f2)%nat ->
    main_while f1 (mkMain m c0 l1 g out) = main_while f2 (mkMain m c0 l2 g out).
Proof.
  induction f1 as [| f1 IH]; intros f2 m c0 g out l1 l2 Hws Hg H1 H2; [lia |].
  destruct f2 as [| f2]; [lia |].
  cbn [main_while cin_good]. destruct g.
  - unfold loop_body. cbn [cin machine c cout].
    destruct (skipws_agree l1 l2 Hws)
      as [[-> ->] | (x & r1 & r2 & -> & -> & Hr & L1 & L2)].
    + destruct (keydown m) as [m' |]; [| reflexivity]. rewrite !bind_Ok.
      destruct c0 as [x |]; [| reflexivity]. rewrite !bind_Ok.
      destruct (cipher_one m' x) as [[o diag] |]; [| reflexivity].
      rewrite !bind_Ok. now rewrite !main_while_stopped.
    + destruct (keydown m) as [m' |]; [| reflexivity]. rewrite !bind_Ok.
      destruct (cipher_one m' x) as [[o diag] |]; [| reflexivity].
      rewrite !bind_Ok. apply IH; [exact Hr | discriminate | lia | lia].
  - now rewrite (Hg eq_refl).
Qed.

Lemma without_space_idempotent (l : list Z) :
  without_space (without_space l) = without_space l.
Proof.
  unfold without_space. induction l as [| a l IH]; [reflexivity |].
  cbn [List.filter]. destruct (isspace a) eqn:Ha; cbn [negb List.filter].
  - exact IH.
  - rewrite Ha. cbn [negb]. now rewrite IH.
Qed.

(** X21.  Whitespace in the input is invisible to the program: tabs, line
    feeds, vertical tabs, form feeds, carriage returns and spaces are
    skipped by the extraction, and the run of [main] on any input ends
    exactly as its run on the input with the whitespace removed. *)
Theorem main_skips_whitespace (input : list Z) :
  main input = main (without_space input).
Proof.
  destruct (main_start_Ok input) as (m1 & Hm1 & Hstart).
  destruct (main_start_Ok (without_space input)) as (m1' & Hm1' & Hstart').
  assert (m1' = m1) by congruence. subst m1'.
  unfold main. rewrite Hstart, Hstart', !bind_Ok.
  apply main_while_same_input.
  - symmetry. apply without_space_idempotent.
  - discriminate.
  - lia.
  - lia.
Qed.
